(** * Feedback portal: the analyzer, the store and the submission handler

    A shallow embedding of [app.py]: the helper functions [load_data],
    [save_data] and [analyze_feedback] and the body of the feedback form,
    together with the parts of the Python runtime they call
    ([str.strip], [re.search], [json.loads], [json.dump]), and of the
    step of [pages/admin_dashboard.py] that loads the same file.

    Conventions of the model.
    - A Python [str] is a list of characters, one [ascii] per character
      (the characters U+0000 .. U+00FF).
    - [data.json] is opened in text mode, so the file system is the text the
      file holds, or nothing when the file is absent.
    - Exceptions are values of [exn]; every one of them derives from
      Python's [Exception].
    - Interpreter resource limits (recursion depth, integer digit limits)
      are not part of the model. *)

From Stdlib Require Import Ascii String.
From Stdlib Require Import ZArith NArith Bool Arith Lia List.
From Stdlib Require Decimal DecimalFacts DecimalPos DecimalN.
Import ListNotations.
Open Scope list_scope.

Set Warnings "-register-all".

(* ------------------------------------------------------------------ *)
(** * Python strings *)

Definition pystr := list ascii.

Definition str (s : string) : pystr := list_ascii_of_string s.
Arguments str s%_string.

(** The double quote, written by its code so that it can be named. *)
Definition dquote : ascii := Eval cbv in ascii_of_nat 34.
Definition newline : ascii := Eval cbv in ascii_of_nat 10.

(** [sq2dq] turns every apostrophe of a literal into a double quote: JSON
    texts and the prompt are written below with apostrophes. *)
Definition sq2dq (s : pystr) : pystr :=
  map (fun c => if Ascii.eqb c "'"%char then dquote else c) s.

(** JSON text literal: apostrophes stand for double quotes. *)
Definition jtext (s : string) : pystr := sq2dq (str s).
Arguments jtext s%_string.

Definition pystr_eqb (a b : pystr) : bool :=
  if list_eq_dec ascii_dec a b then true else false.

(** [str.isspace] on one character, which is also the class [\s] of [re] on
    [str] patterns: TAB..CR, FS..US, space, NEL and NBSP. *)
Definition is_space (c : ascii) : bool :=
  let n := N_of_ascii c in
  (((9 <=? n) && (n <=? 13)) || ((28 <=? n) && (n <=? 32))
   || (n =? 133) || (n =? 160))%N.

Fixpoint lstrip (s : pystr) : pystr :=
  match s with
  | c :: s' => if is_space c then lstrip s' else s
  | [] => []
  end.

(** [str.strip()] *)
Definition strip (s : pystr) : pystr := rev (lstrip (rev (lstrip s))).

(** [s.startswith(p)], returning what follows the prefix. *)
Fixpoint strip_prefix (p s : pystr) : option pystr :=
  match p, s with
  | [], _ => Some s
  | a :: p', b :: s' => if Ascii.eqb a b then strip_prefix p' s' else None
  | _ :: _, [] => None
  end.

(* ------------------------------------------------------------------ *)
(** * Regular expressions: the fragment of [re] the pattern uses

    A backtracking matcher in continuation style, with the priorities of
    [re]: the left alternative first, a starred class as long as possible
    first, the leftmost start position first. *)

Inductive regex : Type :=
| RLit (l : pystr)
| RStar (p : ascii -> bool)
| RGroup (i : nat) (r : regex)
| RSeq (r1 r2 : regex)
| RAlt (r1 r2 : regex).

(** The numbered groups that took part in a match, latest first. *)
Definition groups := list (nat * pystr).

Fixpoint group (i : nat) (m : groups) : option pystr :=
  match m with
  | [] => None
  | (j, s) :: m' => if Nat.eqb i j then Some s else group i m'
  end.

(** The characters of [s] consumed to reach its suffix [s']. *)
Definition consumed (s s' : pystr) : pystr :=
  firstn (length s - length s') s.

Fixpoint star {R : Type} (p : ascii -> bool) (s : pystr)
         (k : pystr -> option R) : option R :=
  match s with
  | c :: s' =>
      if p c then
        match star p s' k with
        | Some x => Some x
        | None => k s
        end
      else k s
  | [] => k s
  end.

Fixpoint rmatch {R : Type} (r : regex) (s : pystr) (caps : groups)
         (k : pystr -> groups -> option R) : option R :=
  match r with
  | RLit l =>
      match strip_prefix l s with
      | Some s' => k s' caps
      | None => None
      end
  | RStar p => star p s (fun s' => k s' caps)
  | RGroup i r1 =>
      rmatch r1 s caps (fun s' caps' => k s' ((i, consumed s s') :: caps'))
  | RSeq r1 r2 =>
      rmatch r1 s caps (fun s' caps' => rmatch r2 s' caps' k)
  | RAlt r1 r2 =>
      match rmatch r1 s caps k with
      | Some x => Some x
      | None => rmatch r2 s caps k
      end
  end.

(** [re.match]: the groups of the match at the start of [s]. *)
Definition re_match (r : regex) (s : pystr) : option groups :=
  rmatch r s [] (fun _ caps => Some caps).

(** [re.search]: the first start position with a match. *)
Fixpoint re_search (r : regex) (s : pystr) : option groups :=
  match re_match r s with
  | Some m => Some m
  | None =>
      match s with
      | [] => None
      | _ :: s' => re_search r s'
      end
  end.

Definition any_char (_ : ascii) : bool := true.

Definition fence_open : pystr := str "```json".
Definition fence_close : pystr := str "```".

(** [\{.*\}] under [re.DOTALL] *)
Definition brace_span : regex :=
  RSeq (RLit (str "{")) (RSeq (RStar any_char) (RLit (str "}"))).

(** The pattern of [analyze_feedback], with its two groups. *)
Definition json_pattern : regex :=
  RAlt (RSeq (RLit fence_open)
          (RSeq (RStar is_space)
             (RSeq (RGroup 1 brace_span)
                (RSeq (RStar is_space) (RLit fence_close)))))
       (RGroup 2 brace_span).

(** Python's [a or b] on two optional strings: [None] and the empty string
    are false. *)
Definition py_or (a b : option pystr) : option pystr :=
  match a with
  | Some (_ :: _) => a
  | _ => b
  end.

(* ------------------------------------------------------------------ *)
(** * JSON values

    What [json.loads] builds: [None], [bool], [int], [float], [str],
    [list] and [dict].  A [dict] keeps its keys in insertion order and has
    no key twice.  A [float] is kept as the numeral that denotes it: binary
    floating point arithmetic is not part of the model. *)

Inductive digit : Type := d0 | d1 | d2 | d3 | d4 | d5 | d6 | d7 | d8 | d9.

(** One or more digits. *)
Definition digits1 : Type := (digit * list digit)%type.

Inductive exp_sign : Type := SgNone | SgPlus | SgMinus.

(** An exponent part: upper case [E] or not, the sign, the digits. *)
Record exponent : Type := Exponent {
  exp_upper : bool;
  exp_sg : exp_sign;
  exp_digits : digits1
}.

(** What follows the integer part of a numeral that reads as a float. *)
Inductive float_tail : Type :=
| TFrac (f : digits1) (e : option exponent)
| TExp (e : exponent).

Inductive pyfloat : Type :=
| FNaN
| FInf (neg : bool)
| FNum (neg : bool) (ip : N) (t : float_tail).

Inductive json : Type :=
| JNull
| JBool (b : bool)
| JInt (z : Z)
| JFloat (f : pyfloat)
| JStr (s : pystr)
| JArr (l : list json)
| JObj (l : list (pystr * json)).

(** [d.get(k)] *)
Fixpoint dict_lookup (k : pystr) (d : list (pystr * json)) : option json :=
  match d with
  | [] => None
  | (k', v) :: d' => if pystr_eqb k k' then Some v else dict_lookup k d'
  end.

(** [d.get(k, default)] *)
Definition dict_get (k : pystr) (d : list (pystr * json)) (default : json)
  : json :=
  match dict_lookup k d with
  | Some x => x
  | None => default
  end.

(** [d[k] = v]: a key already present keeps its place. *)
Fixpoint dict_set (k : pystr) (v : json) (d : list (pystr * json))
  : list (pystr * json) :=
  match d with
  | [] => [(k, v)]
  | (k', v') :: d' =>
      if pystr_eqb k k' then (k, v) :: d' else (k', v') :: dict_set k v d'
  end.

(* ------------------------------------------------------------------ *)
(** * Decimal digits *)

Definition digit_char (d : digit) : ascii :=
  match d with
  | d0 => "0" | d1 => "1" | d2 => "2" | d3 => "3" | d4 => "4"
  | d5 => "5" | d6 => "6" | d7 => "7" | d8 => "8" | d9 => "9"
  end%char.

Definition char_digit (c : ascii) : option digit :=
  match N_of_ascii c with
  | 48 => Some d0 | 49 => Some d1 | 50 => Some d2 | 51 => Some d3
  | 52 => Some d4 | 53 => Some d5 | 54 => Some d6 | 55 => Some d7
  | 56 => Some d8 | 57 => Some d9
  | _ => None
  end%N.

Fixpoint digits_uint (ds : list digit) : Decimal.uint :=
  match ds with
  | [] => Decimal.Nil
  | d :: ds' =>
      let u := digits_uint ds' in
      match d with
      | d0 => Decimal.D0 u | d1 => Decimal.D1 u | d2 => Decimal.D2 u
      | d3 => Decimal.D3 u | d4 => Decimal.D4 u | d5 => Decimal.D5 u
      | d6 => Decimal.D6 u | d7 => Decimal.D7 u | d8 => Decimal.D8 u
      | d9 => Decimal.D9 u
      end
  end.

Fixpoint uint_digits (u : Decimal.uint) : list digit :=
  match u with
  | Decimal.Nil => []
  | Decimal.D0 u' => d0 :: uint_digits u'
  | Decimal.D1 u' => d1 :: uint_digits u'
  | Decimal.D2 u' => d2 :: uint_digits u'
  | Decimal.D3 u' => d3 :: uint_digits u'
  | Decimal.D4 u' => d4 :: uint_digits u'
  | Decimal.D5 u' => d5 :: uint_digits u'
  | Decimal.D6 u' => d6 :: uint_digits u'
  | Decimal.D7 u' => d7 :: uint_digits u'
  | Decimal.D8 u' => d8 :: uint_digits u'
  | Decimal.D9 u' => d9 :: uint_digits u'
  end.

(** The value of a digit sequence, and the digits of a natural number. *)
Definition digits_value (ds : list digit) : N := N.of_uint (digits_uint ds).
Definition N_digits (n : N) : list digit := uint_digits (N.to_uint n).

Definition digits_text (ds : list digit) : pystr := map digit_char ds.

(** The longest run of digits at the start of [s]. *)
Fixpoint span_digits (s : pystr) : list digit * pystr :=
  match s with
  | [] => ([], [])
  | c :: s' =>
      match char_digit c with
      | Some d => let (ds, r) := span_digits s' in (d :: ds, r)
      | None => ([], s)
      end
  end.

(** [int.__repr__] *)
Definition int_repr (z : Z) : pystr :=
  match z with
  | Zneg p => "-"%char :: digits_text (N_digits (Npos p))
  | _ => digits_text (N_digits (Z.to_N z))
  end.

(* ------------------------------------------------------------------ *)
(** * [json.loads]: the decoder

    The scanner follows CPython's [json.scanner] and [json.decoder]
    ([strict] mode, default hooks).  A scan yields a value and the text that
    follows it, or finds the text malformed ([JSONDecodeError]).  The fuel
    bounds the depth of the calls; [scan_fuel] is always enough. *)

Inductive scan (A : Type) : Type :=
| Scanned (a : A) (rest : pystr)
| Malformed
| OutOfFuel.
Arguments Scanned {A} a rest.
Arguments Malformed {A}.
Arguments OutOfFuel {A}.

Definition scan_map {A B : Type} (f : A -> B) (r : scan A) : scan B :=
  match r with
  | Scanned a rest => Scanned (f a) rest
  | Malformed => Malformed
  | OutOfFuel => OutOfFuel
  end.

(** The white space of JSON: space, TAB, LF, CR. *)
Definition is_json_ws (c : ascii) : bool :=
  let n := N_of_ascii c in ((n =? 32) || (n =? 9) || (n =? 10) || (n =? 13))%N.

Fixpoint skip_ws (s : pystr) : pystr :=
  match s with
  | c :: s' => if is_json_ws c then skip_ws s' else s
  | [] => []
  end.

Definition hex_value (c : ascii) : option N :=
  let n := N_of_ascii c in
  if ((48 <=? n) && (n <=? 57))%N then Some (n - 48)%N
  else if ((97 <=? n) && (n <=? 102))%N then Some (n - 87)%N
  else if ((65 <=? n) && (n <=? 70))%N then Some (n - 55)%N
  else None.

(** The character of a [\uXXXX] escape.  Code points above U+00FF have no
    counterpart in the character model: such an escape is not decoded. *)
Definition hex4 (h1 h2 h3 h4 : ascii) : option ascii :=
  match hex_value h1, hex_value h2, hex_value h3, hex_value h4 with
  | Some a, Some b, Some c, Some d =>
      let n := (((a * 16 + b) * 16 + c) * 16 + d)%N in
      if (n <? 256)%N then Some (ascii_of_N n) else None
  | _, _, _, _ => None
  end.

(** The one-letter escapes of [json.decoder.BACKSLASH]. *)
Definition unescape (e : ascii) : option ascii :=
  if (e =? dquote)%char then Some dquote
  else if (e =? "\")%char then Some "\"%char
  else if (e =? "/")%char then Some "/"%char
  else if (e =? "b")%char then Some (ascii_of_nat 8)
  else if (e =? "f")%char then Some (ascii_of_nat 12)
  else if (e =? "n")%char then Some (ascii_of_nat 10)
  else if (e =? "r")%char then Some (ascii_of_nat 13)
  else if (e =? "t")%char then Some (ascii_of_nat 9)
  else None.

(** [scanstring], after the opening quote. *)
Fixpoint scanstring (s : pystr) : scan pystr :=
  match s with
  | [] => Malformed
  | c :: s1 =>
      if (c =? dquote)%char then Scanned [] s1
      else if (c =? "\")%char then
        match s1 with
        | [] => Malformed
        | e :: s2 =>
            if (e =? "u")%char then
              match s2 with
              | h1 :: h2 :: h3 :: h4 :: s3 =>
                  match hex4 h1 h2 h3 h4 with
                  | Some ch => scan_map (cons ch) (scanstring s3)
                  | None => Malformed
                  end
              | _ => Malformed
              end
            else
              match unescape e with
              | Some ch => scan_map (cons ch) (scanstring s2)
              | None => Malformed
              end
        end
      else if (N_of_ascii c <? 32)%N then Malformed
      else scan_map (cons c) (scanstring s1)
  end.

(** The integer part of a numeral: [0], or a non-zero digit and digits. *)
Definition scan_int_part (s : pystr) : option (N * pystr) :=
  match s with
  | [] => None
  | c :: r =>
      match char_digit c with
      | None => None
      | Some d0 => Some (0%N, r)
      | Some d => let (ds, r') := span_digits r in
                  Some (digits_value (d :: ds), r')
      end
  end.

(** The fraction: a point followed by at least one digit. *)
Definition scan_frac (s : pystr) : option digits1 * pystr :=
  match s with
  | p :: c :: r =>
      if (p =? ".")%char then
        match char_digit c with
        | Some d => let (ds, r') := span_digits r in (Some (d, ds), r')
        | None => (None, s)
        end
      else (None, s)
  | _ => (None, s)
  end.

Definition scan_exp_sign (s : pystr) : exp_sign * pystr :=
  match s with
  | c :: r =>
      if (c =? "+")%char then (SgPlus, r)
      else if (c =? "-")%char then (SgMinus, r)
      else (SgNone, s)
  | [] => (SgNone, s)
  end.

(** The exponent: [e] or [E], an optional sign, at least one digit. *)
Definition scan_exp (s : pystr) : option exponent * pystr :=
  match s with
  | e :: r =>
      if ((e =? "e") || (e =? "E"))%char then
        let (sg, r1) := scan_exp_sign r in
        match r1 with
        | c :: r2 =>
            match char_digit c with
            | Some d =>
                let (ds, r3) := span_digits r2 in
                (Some (Exponent (e =? "E")%char sg (d, ds)), r3)
            | None => (None, s)
            end
        | [] => (None, s)
        end
      else (None, s)
  | [] => (None, s)
  end.

Definition signed (neg : bool) (n : N) : Z :=
  if neg then (- Z.of_N n)%Z else Z.of_N n.

(** [_match_number]: an [int] when the numeral has neither fraction nor
    exponent, a [float] otherwise. *)
Definition scan_number (s : pystr) : scan json :=
  let (neg, s0) :=
    match s with
    | c :: r => if (c =? "-")%char then (true, r) else (false, s)
    | [] => (false, s)
    end in
  match scan_int_part s0 with
  | None => Malformed
  | Some (ip, s1) =>
      let (fr, s2) := scan_frac s1 in
      let (ex, s3) := scan_exp s2 in
      match fr, ex with
      | None, None => Scanned (JInt (signed neg ip)) s3
      | Some f, _ => Scanned (JFloat (FNum neg ip (TFrac f ex))) s3
      | None, Some e => Scanned (JFloat (FNum neg ip (TExp e))) s3
      end
  end.

(** A keyword at the start of [s]. *)
Definition scan_word (w : pystr) (v : json) (s : pystr) : scan json :=
  match strip_prefix w s with
  | Some r => Scanned v r
  | None => Malformed
  end.

(** [scan_once], [JSONObject] and [JSONArray].  [scan_pairs] starts where
    a key is expected and [scan_items] where an element is expected. *)
Fixpoint scan_once (fuel : nat) (s : pystr) {struct fuel} : scan json :=
  match fuel with
  | O => OutOfFuel
  | S f =>
      match s with
      | [] => Malformed
      | c :: r =>
          if (c =? dquote)%char then scan_map JStr (scanstring r)
          else if (c =? "{")%char then
            match skip_ws r with
            | c1 :: r1 =>
                if (c1 =? "}")%char then Scanned (JObj []) r1
                else scan_pairs f [] (c1 :: r1)
            | [] => Malformed
            end
          else if (c =? "[")%char then
            match skip_ws r with
            | c1 :: r1 =>
                if (c1 =? "]")%char then Scanned (JArr []) r1
                else scan_items f [] (c1 :: r1)
            | [] => Malformed
            end
          else if (c =? "n")%char then scan_word (str "null") JNull s
          else if (c =? "t")%char then scan_word (str "true") (JBool true) s
          else if (c =? "f")%char then scan_word (str "false") (JBool false) s
          else if (c =? "N")%char then scan_word (str "NaN") (JFloat FNaN) s
          else if (c =? "I")%char then
            scan_word (str "Infinity") (JFloat (FInf false)) s
          else
            match strip_prefix (str "-Infinity") s with
            | Some r' => Scanned (JFloat (FInf true)) r'
            | None => scan_number s
            end
      end
  end

with scan_pairs (fuel : nat) (acc : list (pystr * json)) (s : pystr)
       {struct fuel} : scan json :=
  match fuel with
  | O => OutOfFuel
  | S f =>
      match s with
      | [] => Malformed
      | q :: r =>
          if (q =? dquote)%char then
            match scanstring r with
            | Scanned key r1 =>
                match skip_ws r1 with
                | c :: r2 =>
                    if (c =? ":")%char then
                      match scan_once f (skip_ws r2) with
                      | Scanned v r3 =>
                          let acc' := dict_set key v acc in
                          match skip_ws r3 with
                          | c' :: r4 =>
                              if (c' =? "}")%char then Scanned (JObj acc') r4
                              else if (c' =? ",")%char then
                                scan_pairs f acc' (skip_ws r4)
                              else Malformed
                          | [] => Malformed
                          end
                      | Malformed => Malformed
                      | OutOfFuel => OutOfFuel
                      end
                    else Malformed
                | [] => Malformed
                end
            | Malformed => Malformed
            | OutOfFuel => OutOfFuel
            end
          else Malformed
      end
  end

with scan_items (fuel : nat) (acc : list json) (s : pystr)
       {struct fuel} : scan json :=
  match fuel with
  | O => OutOfFuel
  | S f =>
      match scan_once f s with
      | Scanned v r =>
          let acc' := acc ++ [v] in
          match skip_ws r with
          | c :: r1 =>
              if (c =? "]")%char then Scanned (JArr acc') r1
              else if (c =? ",")%char then scan_items f acc' (skip_ws r1)
              else Malformed
          | [] => Malformed
          end
      | Malformed => Malformed
      | OutOfFuel => OutOfFuel
      end
  end.

(** Enough fuel for any text: every call is paid by a character. *)
Definition scan_fuel (s : pystr) : nat := 2 * length s + 2.

(** [JSONDecoder.decode]: white space, one value, white space, the end. *)
Definition json_decode (s : pystr) : option json :=
  let s0 := skip_ws s in
  match scan_once (scan_fuel s0) s0 with
  | Scanned v r =>
      match skip_ws r with
      | [] => Some v
      | _ :: _ => None
      end
  | _ => None
  end.

(* ------------------------------------------------------------------ *)
(** * [json.dump(data, f, indent=4)]: the encoder

    [ensure_ascii] is on, the item separator is a comma and the key
    separator a colon and a space, as [indent=4] makes them. *)

Definition hex_digit (n : N) : ascii :=
  if (n <? 10)%N then ascii_of_N (48 + n) else ascii_of_N (87 + n).

(** [ESCAPE_ASCII]: the named escapes, printable ASCII as it is, [\u00xx]
    for the rest. *)
Definition escape_char (c : ascii) : pystr :=
  let n := N_of_ascii c in
  if (c =? dquote)%char then ["\"%char; dquote]
  else if (c =? "\")%char then str "\\"
  else if (n =? 10)%N then str "\n"
  else if (n =? 13)%N then str "\r"
  else if (n =? 9)%N then str "\t"
  else if (n =? 8)%N then str "\b"
  else if (n =? 12)%N then str "\f"
  else if ((32 <=? n) && (n <=? 126))%N then [c]
  else str "\u00" ++ [hex_digit (n / 16); hex_digit (n mod 16)].

Definition encode_string (s : pystr) : pystr :=
  dquote :: flat_map escape_char s ++ [dquote].

Definition digits1_text (ds : digits1) : pystr :=
  digits_text (fst ds :: snd ds).

Definition exponent_text (e : exponent) : pystr :=
  (if exp_upper e then "E"%char else "e"%char)
    :: match exp_sg e with
       | SgNone => []
       | SgPlus => ["+"%char]
       | SgMinus => ["-"%char]
       end ++ digits1_text (exp_digits e).

Definition float_tail_text (t : float_tail) : pystr :=
  match t with
  | TFrac f e =>
      "."%char :: digits1_text f
        ++ match e with Some e' => exponent_text e' | None => [] end
  | TExp e => exponent_text e
  end.

(** [float.__repr__], with the three names [json] gives the non-finite
    values: the numeral the float is kept as. *)
Definition float_repr (f : pyfloat) : pystr :=
  match f with
  | FNaN => str "NaN"
  | FInf false => str "Infinity"
  | FInf true => str "-Infinity"
  | FNum neg ip t =>
      (if neg then ["-"%char] else [])
        ++ digits_text (N_digits ip) ++ float_tail_text t
  end.

(** A new line and the indentation of nesting level [lvl]. *)
Definition newline_indent (lvl : nat) : pystr :=
  newline :: repeat " "%char (4 * lvl).

Fixpoint join (sep : pystr) (l : list pystr) : pystr :=
  match l with
  | [] => []
  | [x] => x
  | x :: l' => x ++ sep ++ join sep l'
  end.

Fixpoint encode (lvl : nat) (v : json) {struct v} : pystr :=
  match v with
  | JNull => str "null"
  | JBool true => str "true"
  | JBool false => str "false"
  | JInt z => int_repr z
  | JFloat f => float_repr f
  | JStr s => encode_string s
  | JArr [] => str "[]"
  | JArr l =>
      "["%char :: newline_indent (S lvl)
        ++ join (","%char :: newline_indent (S lvl)) (map (encode (S lvl)) l)
        ++ newline_indent lvl ++ ["]"%char]
  | JObj [] => str "{}"
  | JObj l =>
      "{"%char :: newline_indent (S lvl)
        ++ join (","%char :: newline_indent (S lvl))
             (map (fun kv => encode_string (fst kv) ++ str ": "
                               ++ encode (S lvl) (snd kv)) l)
        ++ newline_indent lvl ++ ["}"%char]
  end.

Definition json_encode (v : json) : pystr := encode 0 v.

(* ------------------------------------------------------------------ *)
(** * Exceptions, the world and the monad of the script *)

Inductive exn : Type :=
| JSONDecodeError
| AttributeError
| TypeError
| FileNotFoundError
| ServiceError (msg : pystr).

Inductive result (A : Type) : Type :=
| Ok (a : A)
| Raise (e : exn).
Arguments Ok {A} a.
Arguments Raise {A} e.

(** What Streamlit has been asked to show. *)
Inductive ui_event : Type :=
| StError (msg : pystr) (e : exn)
| StSuccess (msg : pystr)
| StInfo (msg : pystr) (v : json).

(** The text of [data.json] (nothing when the file is absent) and the
    page, oldest event first. *)
Record world : Type := World {
  file : option pystr;
  ui : list ui_event
}.

Definition M (A : Type) : Type := world -> result A * world.

Definition ret {A : Type} (a : A) : M A := fun w => (Ok a, w).

Definition bind {A B : Type} (c : M A) (k : A -> M B) : M B :=
  fun w =>
    match c w with
    | (Ok a, w') => k a w'
    | (Raise e, w') => (Raise e, w')
    end.

Definition raise {A : Type} (e : exn) : M A := fun w => (Raise e, w).

Definition lift {A : Type} (r : result A) : M A := fun w => (r, w).

(** [try: c except <handles> as e: h e] *)
Definition try_except {A : Type} (c : M A) (handles : exn -> bool)
           (h : exn -> M A) : M A :=
  fun w =>
    match c w with
    | (Ok a, w') => (Ok a, w')
    | (Raise e, w') => if handles e then h e w' else (Raise e, w')
    end.

Notation "x <- c ;; k" := (bind c (fun x => k))
  (at level 61, c at next level, right associativity).
Notation "c ;;; k" := (bind c (fun _ => k))
  (at level 61, right associativity).

(** [os.path.exists(DATA_FILE)] *)
Definition path_exists : M bool :=
  fun w => (Ok (match file w with Some _ => true | None => false end), w).

(** [open(DATA_FILE, "r")] and [f.read()] *)
Definition read_file : M pystr :=
  fun w =>
    match file w with
    | Some t => (Ok t, w)
    | None => (Raise FileNotFoundError, w)
    end.

(** [open(DATA_FILE, "w")] and the writes of [json.dump] *)
Definition write_file (t : pystr) : M unit :=
  fun w => (Ok tt, World (Some t) (ui w)).

Definition st_show (e : ui_event) : M unit :=
  fun w => (Ok tt, World (file w) (ui w ++ [e])).

(** [json.loads] *)
Definition json_loads (s : pystr) : result json :=
  match json_decode s with
  | Some v => Ok v
  | None => Raise JSONDecodeError
  end.

Definition is_JSONDecodeError (e : exn) : bool :=
  match e with JSONDecodeError => true | _ => false end.

(** Every exception of the model is an [Exception]. *)
Definition is_Exception (e : exn) : bool := true.

(* ------------------------------------------------------------------ *)
(** * The store *)

(** [json.load(f)] on the file just opened for reading. *)
Definition json_load : M json :=
  t <- read_file ;;
  lift (json_loads t).

(** [json.dump(data, f, indent=4)] on the file just opened for writing. *)
Definition json_dump (data : json) : M unit :=
  write_file (json_encode data).

Definition load_data : M json :=
  ex <- path_exists ;;
  if negb ex then ret (JArr [])
  else try_except json_load is_JSONDecodeError (fun _ => ret (JArr [])).

(** [data.append(x)]: only a list has the method. *)
Definition py_append (data x : json) : M json :=
  match data with
  | JArr l => ret (JArr (l ++ [x]))
  | _ => raise AttributeError
  end.

Definition save_data (new_entry : json) : M unit :=
  data <- load_data ;;
  data' <- py_append data new_entry ;;
  json_dump data'.

(* ------------------------------------------------------------------ *)
(** * The analyzer *)

(** What the generation call and the reading of [response.text] come to:
    a text, or an exception. *)
Inductive reply : Type :=
| Reply (text : pystr)
| Fails (e : exn).

Definition prompt_head : pystr := jtext "
    You are a customer service AI analysis tool. Your job is to process customer feedback and provide structured insights.

    Input Data:
    - User Rating: ".

Definition prompt_middle : pystr := jtext "/5
    - User Review: '".

Definition prompt_tail : pystr := jtext "'

    Task:
    Analyze the input and provide a JSON response with exactly these keys:
    1. 'user_response': A polite, empathetic, and specific reply to the user (max 2 sentences). For positive reviews, express appreciation. For negative reviews, apologize and validate their feelings.
    2. 'summary': A concise, 5-10 word **root-cause summary** of the feedback (e.g., 'Slow service and cold food issue').
    3. 'action': A single, concrete, and measurable recommended next step for the admin (e.g., 'Schedule retraining for front-of-house staff on order speed.').

    Ensure the final output is ONLY a valid JSON object.
    ".

Definition build_prompt (rating : Z) (review : pystr) : pystr :=
  prompt_head ++ int_repr rating ++ prompt_middle ++ review ++ prompt_tail.

Definition k_user_response : pystr := str "user_response".
Definition k_summary : pystr := str "summary".
Definition k_action : pystr := str "action".

Definition fallback_user_response : pystr :=
  str "Thank you for sharing your experience. We are currently experiencing a system issue and will address your feedback shortly.".
Definition fallback_summary : pystr := str "System/API Error".
Definition fallback_action : pystr := str "Check system logs and API usage.".

Definition fallback : json :=
  JObj [ (k_user_response, JStr fallback_user_response);
         (k_summary, JStr fallback_summary);
         (k_action, JStr fallback_action) ].

Definition analysis_error_text : pystr :=
  str "Error communicating with Gemini or parsing JSON: ".

(** The string handed to [json.loads] when the pattern is found:
    [json_match.group(1) or json_match.group(2)]. *)
Definition json_string (m : groups) : option pystr :=
  py_or (group 1 m) (group 2 m).

(** The body of the [try] once the text of the response is known. *)
Definition parse_response (t : pystr) : result json :=
  let text := strip t in
  match re_search json_pattern text with
  | Some m =>
      match json_string m with
      | Some js => json_loads js
      | None => Raise TypeError
      end
  | None => json_loads text
  end.

(* ------------------------------------------------------------------ *)
(** * The feedback form *)

(** [v.get(k, default)]: only a dict has the method. *)
Definition py_get (v : json) (k : pystr) (default : json) : M json :=
  match v with
  | JObj d => ret (dict_get k d default)
  | _ => raise AttributeError
  end.

Definition k_timestamp : pystr := str "timestamp".
Definition k_rating : pystr := str "rating".
Definition k_review : pystr := str "review".
Definition k_ai_response : pystr := str "ai_response".
Definition k_ai_summary : pystr := str "ai_summary".
Definition k_ai_action : pystr := str "ai_action".

(** The dict literal [entry] of the form. *)
Definition make_entry (now : pystr) (rating : Z) (review : pystr)
           (r s a : json) : json :=
  JObj [ (k_timestamp, JStr now);
         (k_rating, JInt rating);
         (k_review, JStr review);
         (k_ai_response, r);
         (k_ai_summary, s);
         (k_ai_action, a) ].

Definition thank_you : pystr := str "Thank you!".
Definition our_response : pystr := str "**Our Response:** ".

(** A non-empty [str] is true. *)
Definition truthy (s : pystr) : bool :=
  match s with [] => false | _ :: _ => true end.

Section Analyzer.

(** The generative model behind [model.generate_content] and
    [response.text], as a function of the prompt. *)
Variable service : pystr -> reply.

Definition generate_text (prompt : pystr) : M pystr :=
  match service prompt with
  | Reply t => ret t
  | Fails e => raise e
  end.

Definition analyze_feedback (rating : Z) (review : pystr) : M json :=
  let prompt := build_prompt rating review in
  try_except
    (t <- generate_text prompt ;;
     lift (parse_response t))
    is_Exception
    (fun e =>
       st_show (StError analysis_error_text e) ;;;
       ret fallback).

(** The body of the form once the widgets have returned: [now] is
    [datetime.now()] already formatted, [submitted] the state of the
    button, [rating] the slider and [review] the text area.  An exception
    that leaves the form is shown by Streamlit in place of the page. *)
Definition feedback_form (now : pystr) (submitted : bool) (rating : Z)
           (review : pystr) : M unit :=
  if submitted && truthy review then
    ai_results <- analyze_feedback rating review ;;
    r <- py_get ai_results k_user_response (JStr []) ;;
    s <- py_get ai_results k_summary (JStr []) ;;
    a <- py_get ai_results k_action (JStr []) ;;
    let entry := make_entry now rating review r s a in
    save_data entry ;;;
    st_show (StSuccess thank_you) ;;;
    st_show (StInfo our_response r)
  else ret tt.

End Analyzer.

Definition empty_world : world := World None [].

Arguments char_digit : simpl never.
Arguments digit_char : simpl never.

(* ------------------------------------------------------------------ *)
(** * Predicates of the proofs *)

(** The text [s] does not go on with a digit. *)
Definition no_digit_head (s : pystr) : Prop :=
  match s with
  | [] => True
  | c :: _ => char_digit c = None
  end.

(** Where a value printed by [encode] ends: at the end of the text, at a
    comma or at a new line. *)
Definition value_end (s : pystr) : Prop :=
  match s with
  | [] => True
  | c :: _ => c = ","%char \/ c = newline
  end.

Fixpoint distinct (l : list pystr) : bool :=
  match l with
  | [] => true
  | x :: l' => negb (existsb (pystr_eqb x) l') && distinct l'
  end.

Fixpoint keys_unique (v : json) : bool :=
  match v with
  | JArr l => forallb keys_unique l
  | JObj l =>
      distinct (map fst l) && forallb (fun kv => keys_unique (snd kv)) l
  | _ => true
  end.

(** Induction on values, through the lists they nest. *)
Section JsonInduction.

Variable P : json -> Prop.
Hypothesis HNull : P JNull.
Hypothesis HBool : forall b, P (JBool b).
Hypothesis HInt : forall z, P (JInt z).
Hypothesis HFloat : forall f, P (JFloat f).
Hypothesis HStr : forall s, P (JStr s).
Hypothesis HArr : forall l, Forall P l -> P (JArr l).
Hypothesis HObj : forall l, Forall (fun kv => P (snd kv)) l -> P (JObj l).

Fixpoint json_nested_ind (v : json) : P v :=
  match v with
  | JNull => HNull
  | JBool b => HBool b
  | JInt z => HInt z
  | JFloat f => HFloat f
  | JStr s => HStr s
  | JArr l =>
      HArr l ((fix all (l : list json) : Forall P l :=
               match l with
               | [] => Forall_nil P
               | x :: l' => Forall_cons x (json_nested_ind x) (all l')
               end) l)
  | JObj l =>
      HObj l ((fix all (l : list (pystr * json))
              : Forall (fun kv => P (snd kv)) l :=
               match l with
               | [] => Forall_nil _
               | kv :: l' =>
                   Forall_cons kv (json_nested_ind (snd kv)) (all l')
               end) l)
  end.

End JsonInduction.

(** A printed value starts with a character that is neither white space
    nor a closing bracket. *)
Definition starts_value (s : pystr) : Prop :=
  exists c tl, s = c :: tl /\ is_json_ws c = false
               /\ (c =? "]")%char = false /\ (c =? "}")%char = false.

(** [v], printed at any nesting level and followed by the end of a value,
    is scanned as [v] with fuel above twice the length of its text. *)
Definition reads_back (v : json) : Prop :=
  forall lvl rest f,
    value_end rest -> 2 * length (encode lvl v) < f ->
    scan_once f (encode lvl v ++ rest) = Scanned v rest.

Definition item_sep (lvl : nat) : pystr := ","%char :: newline_indent lvl.

Definition pair_text (lvl : nat) (kv : pystr * json) : pystr :=
  encode_string (fst kv) ++ str ": " ++ encode lvl (snd kv).

Definition dict_ok (d : list (pystr * json)) : Prop :=
  NoDup (map fst d) /\ forallb (fun kv => keys_unique (snd kv)) d = true.

(** [\s*] takes all the white space in front of a character that is not
    white space. *)
Definition not_space_head (s : pystr) : Prop :=
  match s with
  | [] => True
  | c :: _ => is_space c = false
  end.

(** Characters in front of which neither alternative can start. *)
Definition plain_char (c : ascii) : bool :=
  negb ((c =? "{")%char || (c =? "`")%char).

(** The text has an opening brace with a closing brace somewhere after. *)
Definition has_brace_span (text : pystr) : Prop :=
  exists pre mid post, text = pre ++ "{"%char :: mid ++ "}"%char :: post.

(** The page after the analyzer has reported [e]. *)
Definition reported (w : world) (e : exn) : world :=
  World (file w) (ui w ++ [StError analysis_error_text e]).

(** What [load_data] makes of the file. *)
Definition stored (f : option pystr) : json :=
  match f with
  | None => JArr []
  | Some t =>
      match json_decode t with
      | Some v => v
      | None => JArr []
      end
  end.

(** The record the form builds from the payload of the analyzer. *)
Definition entry_of (now : pystr) (rating : Z) (review : pystr)
           (payload : list (pystr * json)) : json :=
  make_entry now rating review
    (dict_get k_user_response payload (JStr []))
    (dict_get k_summary payload (JStr []))
    (dict_get k_action payload (JStr [])).

(* ------------------------------------------------------------------ *)
(** * Predicates of the statements *)




Definition has_six_fields (r : json) : Prop :=
  exists t ra rv a b c,
    r = JObj [ (str "timestamp", t); (str "rating", ra); (str "review", rv);
               (str "ai_response", a); (str "ai_summary", b);
               (str "ai_action", c) ].

(** The worlds the script can be in: it starts without [data.json], and
    every run of the form, whatever the widgets and the service do, leads
    to the next one. *)
Inductive reachable : world -> Prop :=
| reach_start u : reachable (World None u)
| reach_submit w service now submitted rating review res w' :
    reachable w ->
    feedback_form service now submitted rating review w = (res, w') ->
    reachable w'.

(** The analysis of this submission fails: the call raises, or the text
    of the response cannot be parsed. *)
Definition analysis_fails (service : pystr -> reply) (rating : Z)
           (review : pystr) : Prop :=
  match service (build_prompt rating review) with
  | Fails _ => True
  | Reply t => exists e, parse_response t = Raise e
  end.

(** The file is absent, or holds the text of a list of six-field records. *)
Definition store_inv (f : option pystr) : Prop :=
  f = None
  \/ exists l, f = Some (json_encode (JArr l))
               /\ keys_unique (JArr l) = true
               /\ Forall has_six_fields l.

(* ------------------------------------------------------------------ *)
(** * Inputs of the examples *)

(** A service that answers every prompt with the same text. *)
Definition replies (t : pystr) : pystr -> reply := fun _ => Reply t.

Definition fenced_example : pystr := jtext "```json
{'user_response':'A','summary':'B','action':'C'}
```".

Definition bare_example : pystr :=
  jtext "{'user_response':'A','summary':'B','action':'C'}".

Definition triple_ABC : json :=
  JObj [ (str "user_response", JStr (str "A"));
         (str "summary", JStr (str "B"));
         (str "action", JStr (str "C")) ].

Definition two_field_reply : pystr :=
  jtext "{'user_response': 'Thanks!', 'action': 'Call the customer back.'}".

Definition example_store : world :=
  World (Some (jtext "[{'timestamp': 't0', 'rating': 1, 'review': 'cold'}]")) [].

Definition example_record : json :=
  entry_of (str "2025-01-01 10:00:00") 4 (str "good")
    [ (str "user_response", JStr (str "A"));
      (str "summary", JStr (str "B"));
      (str "action", JStr (str "C")) ].

Definition truncated_store : world :=
  World (Some (jtext "[{'timestamp': 't0', 'rating': 1, 'review': 'cold'}")) [].

(** A service that is down. *)
Definition service_down : pystr -> reply :=
  fun _ => Fails (ServiceError (str "503 Service Unavailable")).

(** The world after one submission made while the service is down. *)
Definition world_after_outage : world :=
  snd (feedback_form service_down (str "2025-01-01 10:00:00") true 2
                     (str "cold food") empty_world).

(* ------------------------------------------------------------------ *)
(** * Predicates of the further properties *)

(** The characters that end a value inside a JSON text: white space, a
    comma, a closing bracket or brace. *)
Definition stop_char (c : ascii) : bool :=
  is_json_ws c || (c =? ",")%char || (c =? "]")%char || (c =? "}")%char.

(** The text ends, or goes on with a character that ends a value. *)
Definition stop_head (s : pystr) : Prop :=
  match s with
  | [] => True
  | c :: _ => stop_char c = true
  end.

(** The text does not start with JSON white space. *)
Definition no_ws_head (s : pystr) : Prop :=
  match s with
  | [] => True
  | c :: _ => is_json_ws c = false
  end.

(** The text goes on neither with a digit nor with a point. *)
Definition frac_end (s : pystr) : Prop :=
  match s with
  | [] => True
  | c :: _ => char_digit c = None /\ (c =? ".")%char = false
  end.

(** The text starts like a numeral: a digit, or a minus sign and a digit. *)
Definition numeral_start (p : pystr) : Prop :=
  (exists d tl, p = digit_char d :: tl)
  \/ (exists d tl, p = "-"%char :: digit_char d :: tl).

(** The characters of a text that reads the same in every encoding that
    extends ASCII: the line feed and the printable ASCII characters. *)
Definition ascii_file_char (c : ascii) : bool :=
  let n := N_of_ascii c in ((n =? 10) || ((32 <=? n) && (n <=? 126)))%N.

(** Runs of the form, one after the other, from one world to another:
    each run has its own service, clock, widgets and outcome. *)
Inductive runs : world -> world -> Prop :=
| runs_refl w : runs w w
| runs_step w service now submitted rating review res w1 w' :
    feedback_form service now submitted rating review w = (res, w1) ->
    runs w1 w' ->
    runs w w'.

(* ------------------------------------------------------------------ *)
(** * The dashboard: what it loads before it draws

    [pages/admin_dashboard.py] reads [data.json] by itself.  It stops
    with a notice when the file is absent and when what it has read is
    false in the sense of Python; otherwise it goes on with [raw_data]. *)

Definition exponent_value (e : exponent) : Z :=
  let n := Z.of_N (digits_value (fst (exp_digits e) :: snd (exp_digits e))) in
  match exp_sg e with
  | SgMinus => - n
  | _ => n
  end.

(** The numeral of a float is [float_mantissa * 10 ^ float_exp10]. *)
Definition float_mantissa (ip : N) (t : float_tail) : N :=
  match t with
  | TFrac f _ =>
      ip * 10 ^ N.of_nat (length (fst f :: snd f))
      + digits_value (fst f :: snd f)
  | TExp _ => ip
  end.

Definition float_exp10 (t : float_tail) : Z :=
  match t with
  | TFrac f e =>
      match e with Some e' => exponent_value e' | None => 0 end
      - Z.of_nat (length (fst f :: snd f))
  | TExp e => exponent_value e
  end.

(** [x == 0.0] for the float a numeral reads as.  The conversion rounds to
    the nearest float, ties to even: what is at most [2 ^ -1075], half of
    the least positive float, reads as zero, and nothing else does. *)
Definition float_is_zero (f : pyfloat) : bool :=
  match f with
  | FNaN => false
  | FInf _ => false
  | FNum _ ip t =>
      let m := Z.of_N (float_mantissa ip t) in
      let e := float_exp10 t in
      (m =? 0) || ((e <? 0) && (m * 2 ^ 1075 <=? 10 ^ (- e)))
  end%Z.

(** [not v] *)
Definition py_not (v : json) : bool :=
  match v with
  | JNull => true
  | JBool b => negb b
  | JInt z => (z =? 0)%Z
  | JFloat f => float_is_zero f
  | JStr s => negb (truthy s)
  | JArr l => match l with [] => true | _ :: _ => false end
  | JObj d => match d with [] => true | _ :: _ => false end
  end.

Inductive notice : Type :=
| NoticeInfo (msg : pystr)
| NoticeWarning (msg : pystr).

(** The dashboard has shown a notice and called [st.stop()], or goes on
    to the data frame with [raw_data]. *)
Inductive loaded : Type :=
| Stops (n : notice)
| Proceeds (raw_data : json).

Definition waiting_for_data : pystr :=
  str "Waiting for data... No submissions yet.".
Definition database_is_empty : pystr := str "Database is empty.".

(** The bare [except:] turns every failure of [json.load] into the empty
    list. *)
Definition dashboard_load (w : world) : loaded :=
  match file w with
  | None => Stops (NoticeInfo waiting_for_data)
  | Some t =>
      let raw_data :=
        match json_loads t with
        | Ok v => v
        | Raise _ => JArr []
        end in
      if py_not raw_data then Stops (NoticeWarning database_is_empty)
      else Proceeds raw_data
  end.

(* ================================================================== *)
(** * Properties *)

(* ------------------------------------------------------------------ *)
(** * Equality of strings *)

Lemma pystr_eqb_spec a b : reflect (a = b) (pystr_eqb a b).
Proof. unfold pystr_eqb. destruct (list_eq_dec ascii_dec a b); constructor; assumption. Qed.

Lemma pystr_eqb_refl a : pystr_eqb a a = true.
Proof. destruct (pystr_eqb_spec a a); congruence. Qed.

(* ------------------------------------------------------------------ *)
(** * Decimal numerals read back *)

Lemma char_digit_char d : char_digit (digit_char d) = Some d.
Proof. destruct d; reflexivity. Qed.

Lemma span_digits_text ds rest :
  no_digit_head rest -> span_digits (digits_text ds ++ rest) = (ds, rest).
Proof.
  intros Hr. induction ds as [|d ds IH]; simpl.
  - destruct rest as [|c r]; [reflexivity|]. simpl in Hr |- *. now rewrite Hr.
  - rewrite char_digit_char. fold (digits_text ds). now rewrite IH.
Qed.

Lemma digits_uint_digits u : digits_uint (uint_digits u) = u.
Proof. induction u; simpl; congruence. Qed.

Lemma digits_value_N_digits n : digits_value (N_digits n) = n.
Proof.
  unfold digits_value, N_digits. rewrite digits_uint_digits.
  apply DecimalN.Unsigned.of_to.
Qed.

Lemma nzhead_not_D0 u u' : Decimal.nzhead u <> Decimal.D0 u'.
Proof. induction u; simpl; try discriminate. exact IHu. Qed.

Lemma to_uint_normal n : N.to_uint n = Decimal.unorm (N.to_uint n).
Proof.
  rewrite <- (DecimalN.Unsigned.to_of (N.to_uint n)).
  now rewrite DecimalN.Unsigned.of_to.
Qed.

(** The digits of a number: [0] alone, or a run that starts with a
    non-zero digit. *)
Lemma N_digits_shape n :
  (n = 0%N /\ N_digits n = [d0]) \/
  (exists d ds, N_digits n = d :: ds /\ d <> d0).
Proof.
  destruct n as [|p]; [left; split; reflexivity|right].
  unfold N_digits. rewrite to_uint_normal. unfold Decimal.unorm.
  destruct (Decimal.nzhead (N.to_uint (N.pos p))) eqn:E.
  - exfalso.
    assert (H : N.of_uint (Decimal.unorm (N.to_uint (N.pos p))) = 0%N)
      by (unfold Decimal.unorm; rewrite E; reflexivity).
    rewrite <- to_uint_normal, DecimalN.Unsigned.of_to in H. discriminate.
  - exfalso. exact (nzhead_not_D0 _ _ E).
  - simpl; eexists _, _; split; [reflexivity|discriminate].
  - simpl; eexists _, _; split; [reflexivity|discriminate].
  - simpl; eexists _, _; split; [reflexivity|discriminate].
  - simpl; eexists _, _; split; [reflexivity|discriminate].
  - simpl; eexists _, _; split; [reflexivity|discriminate].
  - simpl; eexists _, _; split; [reflexivity|discriminate].
  - simpl; eexists _, _; split; [reflexivity|discriminate].
  - simpl; eexists _, _; split; [reflexivity|discriminate].
  - simpl; eexists _, _; split; [reflexivity|discriminate].
Qed.

Lemma scan_int_part_digits n rest :
  no_digit_head rest ->
  scan_int_part (digits_text (N_digits n) ++ rest) = Some (n, rest).
Proof.
  intros Hr. destruct (N_digits_shape n) as [[-> E]|(d & ds & E & Hd)].
  - reflexivity.
  - pose proof (digits_value_N_digits n) as V. rewrite E in V |- *.
    unfold scan_int_part. simpl. rewrite char_digit_char.
    fold (digits_text ds). rewrite (span_digits_text ds rest Hr).
    destruct d; try congruence; now rewrite V.
Qed.

Lemma value_end_no_digit s : value_end s -> no_digit_head s.
Proof. destruct s as [|c r]; simpl; [trivial|]. intros [->| ->]; reflexivity. Qed.

Lemma scan_frac_end s : value_end s -> scan_frac s = (None, s).
Proof.
  destruct s as [|c [|c' r]]; simpl; try reflexivity.
  intros [->| ->]; reflexivity.
Qed.

Lemma scan_exp_end s : value_end s -> scan_exp s = (None, s).
Proof. destruct s as [|c r]; simpl; [reflexivity|]. intros [->| ->]; reflexivity. Qed.

Lemma scan_exp_text e rest :
  no_digit_head rest -> scan_exp (exponent_text e ++ rest) = (Some e, rest).
Proof.
  intros Hr. destruct e as [up sg [d ds]].
  unfold exponent_text, digits1_text; simpl.
  assert (Hsp : span_digits (digits_text ds ++ rest) = (ds, rest))
    by now apply span_digits_text.
  destruct up, sg; simpl; unfold scan_exp; simpl;
    try (rewrite char_digit_char; fold (digits_text ds); rewrite Hsp; reflexivity).
  all: destruct d; simpl; rewrite ?char_digit_char;
    fold (digits_text ds); rewrite Hsp; reflexivity.
Qed.

Lemma exponent_text_no_digit e rest : no_digit_head (exponent_text e ++ rest).
Proof. destruct e as [[|] sg ds]; reflexivity. Qed.

Lemma float_tail_no_digit t rest : no_digit_head (float_tail_text t ++ rest).
Proof. destruct t as [f e|e]; [reflexivity|apply exponent_text_no_digit]. Qed.

(** Fraction and exponent of a float numeral read back. *)
Lemma scan_tail_text t rest :
  value_end rest ->
  exists fr ex,
    scan_frac (float_tail_text t ++ rest) = (fr, match ex with
                                                 | Some e => exponent_text e ++ rest
                                                 | None => rest
                                                 end)
    /\ scan_exp (match ex with
                 | Some e => exponent_text e ++ rest
                 | None => rest
                 end) = (ex, rest)
    /\ match fr, ex with
       | None, None => False
       | Some f, _ => t = TFrac f ex
       | None, Some e => t = TExp e
       end.
Proof.
  intros Hr. pose proof (value_end_no_digit _ Hr) as Hd.
  destruct t as [[d ds] e|e].
  - exists (Some (d, ds)), e. split; [|split; [|reflexivity]].
    + unfold float_tail_text, digits1_text, scan_frac; simpl.
      rewrite char_digit_char. fold (digits_text ds). rewrite <- app_assoc.
      destruct e as [e'|]; simpl app.
      * rewrite span_digits_text; [reflexivity|apply exponent_text_no_digit].
      * rewrite span_digits_text; [reflexivity|exact Hd].
    + destruct e; [now apply scan_exp_text|now apply scan_exp_end].
  - exists None, (Some e). split; [|split; [|reflexivity]].
    + destruct e as [[|] sg ds]; simpl;
        destruct sg; destruct ds as [d l]; reflexivity.
    + now apply scan_exp_text.
Qed.

Lemma digit_char_not_minus d : (digit_char d =? "-")%char = false.
Proof. destruct d; reflexivity. Qed.

Lemma N_digits_text_cons n :
  exists d r, digits_text (N_digits n) = digit_char d :: r.
Proof.
  destruct (N_digits_shape n) as [[_ E]|(d & ds & E & _)]; rewrite E;
    eexists _, _; reflexivity.
Qed.

Lemma scan_number_unsigned n rest k :
  no_digit_head rest ->
  (let (neg, s0) :=
     match digits_text (N_digits n) ++ rest with
     | c :: r => if (c =? "-")%char then (true, r)
                 else (false, digits_text (N_digits n) ++ rest)
     | [] => (false, digits_text (N_digits n) ++ rest)
     end in
   match scan_int_part s0 with
   | None => Malformed
   | Some (ip, s1) => k neg ip s1
   end) = k false n rest :> scan json.
Proof.
  intros Hr. destruct (N_digits_text_cons n) as (d & r & E).
  pose proof (scan_int_part_digits n rest Hr) as Hs.
  rewrite E in *. simpl app in *. cbv iota. rewrite digit_char_not_minus.
  now rewrite Hs.
Qed.

Lemma scan_number_int z rest :
  value_end rest -> scan_number (int_repr z ++ rest) = Scanned (JInt z) rest.
Proof.
  intros Hr. pose proof (value_end_no_digit _ Hr) as Hd.
  unfold scan_number. destruct z as [|p|p]; unfold int_repr.
  - rewrite scan_number_unsigned by exact Hd.
    now rewrite scan_frac_end, scan_exp_end.
  - rewrite scan_number_unsigned by exact Hd.
    now rewrite scan_frac_end, scan_exp_end.
  - simpl. rewrite scan_int_part_digits by exact Hd.
    now rewrite scan_frac_end, scan_exp_end.
Qed.

Lemma scan_number_float neg ip t rest :
  value_end rest ->
  scan_number (float_repr (FNum neg ip t) ++ rest)
  = Scanned (JFloat (FNum neg ip t)) rest.
Proof.
  intros Hr. destruct (scan_tail_text t rest Hr) as (fr & ex & Hf & He & Ht).
  unfold scan_number, float_repr. rewrite <- !app_assoc.
  destruct neg.
  - simpl. rewrite scan_int_part_digits by apply float_tail_no_digit.
    destruct ex; rewrite Hf; cbv iota beta; rewrite He;
      destruct fr; subst; try reflexivity; contradiction.
  - simpl app. rewrite scan_number_unsigned by apply float_tail_no_digit.
    destruct ex; rewrite Hf; cbv iota beta; rewrite He;
      destruct fr; subst; try reflexivity; contradiction.
Qed.

(* ------------------------------------------------------------------ *)
(** * Strings read back *)

Lemma scanstring_escape c tl :
  scanstring (escape_char c ++ tl) = scan_map (cons c) (scanstring tl).
Proof.
  destruct c as [[|] [|] [|] [|] [|] [|] [|] [|]]; reflexivity.
Qed.

Lemma scanstring_encoded s rest :
  scanstring (flat_map escape_char s ++ dquote :: rest) = Scanned s rest.
Proof.
  induction s as [|c s IH].
  - reflexivity.
  - cbn [flat_map]. rewrite <- app_assoc, scanstring_escape, IH. reflexivity.
Qed.

(* ------------------------------------------------------------------ *)
(** * Dicts without a repeated key *)

Lemma existsb_eqb_In x l : existsb (pystr_eqb x) l = true <-> In x l.
Proof.
  rewrite existsb_exists. split.
  - intros (y & Hy & E). destruct (pystr_eqb_spec x y); [now subst|discriminate].
  - intros H. exists x. split; [exact H|apply pystr_eqb_refl].
Qed.

Lemma distinct_NoDup l : distinct l = true <-> NoDup l.
Proof.
  induction l as [|x l IH]; simpl.
  - split; [constructor|reflexivity].
  - rewrite andb_true_iff, negb_true_iff, IH. split.
    + intros [Hx Hl]. constructor; [|exact Hl].
      intros Hin. apply existsb_eqb_In in Hin. congruence.
    + intros H. inversion H as [|? ? Hx Hl]; subst. split; [|exact Hl].
      destruct (existsb (pystr_eqb x) l) eqn:E; [|reflexivity].
      apply existsb_eqb_In in E. contradiction.
Qed.

Lemma dict_set_fresh k v d :
  ~ In k (map fst d) -> dict_set k v d = d ++ [(k, v)].
Proof.
  induction d as [|[k' v'] d IH]; simpl; intros H; [reflexivity|].
  destruct (pystr_eqb_spec k k') as [->|_].
  - exfalso. apply H. now left.
  - rewrite IH; [reflexivity|]. intros Hin. apply H. now right.
Qed.

(* ------------------------------------------------------------------ *)
(** * White space and the first character of a printed value *)

Lemma skip_ws_spaces n s : skip_ws (repeat " "%char n ++ s) = skip_ws s.
Proof. induction n as [|n IH]; simpl; [reflexivity|exact IH]. Qed.

Lemma skip_ws_indent lvl s : skip_ws (newline_indent lvl ++ s) = skip_ws s.
Proof. unfold newline_indent. simpl. apply skip_ws_spaces. Qed.

Lemma skip_ws_head c s : is_json_ws c = false -> skip_ws (c :: s) = c :: s.
Proof. intros H. simpl. now rewrite H. Qed.

Lemma starts_value_skip s r : starts_value s -> skip_ws (s ++ r) = s ++ r.
Proof. intros (c & tl & -> & H & _). simpl. now rewrite H. Qed.

Lemma starts_value_digit d tl : starts_value (digit_char d :: tl).
Proof. exists (digit_char d), tl. destruct d; repeat split; reflexivity. Qed.

Lemma starts_value_digits n tl : starts_value (digits_text (N_digits n) ++ tl).
Proof.
  destruct (N_digits_text_cons n) as (d & r & ->). apply starts_value_digit.
Qed.

Lemma starts_value_encode lvl v : starts_value (encode lvl v).
Proof.
  destruct v as [|[|]|z|f|s|[|x l]|[|kv l]];
    try (eexists _, _; repeat split; reflexivity).
  - destruct z; simpl; try (eexists _, _; repeat split; reflexivity).
    rewrite <- (app_nil_r (digits_text _)). apply starts_value_digits.
  - destruct f as [|[|]|[|] ip t]; try (eexists _, _; repeat split; reflexivity).
    simpl. apply starts_value_digits.
Qed.

(* ------------------------------------------------------------------ *)
(** * One step of the scanner *)

Lemma scan_once_string f r :
  scan_once (S f) (dquote :: r) = scan_map JStr (scanstring r).
Proof. reflexivity. Qed.

Lemma scan_once_array f r :
  scan_once (S f) ("["%char :: r)
  = match skip_ws r with
    | c1 :: r1 =>
        if (c1 =? "]")%char then Scanned (JArr []) r1
        else scan_items f [] (c1 :: r1)
    | [] => Malformed
    end.
Proof. reflexivity. Qed.

Lemma scan_once_object f r :
  scan_once (S f) ("{"%char :: r)
  = match skip_ws r with
    | c1 :: r1 =>
        if (c1 =? "}")%char then Scanned (JObj []) r1
        else scan_pairs f [] (c1 :: r1)
    | [] => Malformed
    end.
Proof. reflexivity. Qed.

Lemma scan_once_digit f d r :
  scan_once (S f) (digit_char d :: r) = scan_number (digit_char d :: r).
Proof. destruct d; reflexivity. Qed.

Lemma scan_once_minus_digit f d r :
  scan_once (S f) ("-"%char :: digit_char d :: r)
  = scan_number ("-"%char :: digit_char d :: r).
Proof. destruct d; reflexivity. Qed.

Lemma scan_items_step f acc s :
  scan_items (S f) acc s
  = match scan_once f s with
    | Scanned v r =>
        match skip_ws r with
        | c :: r1 =>
            if (c =? "]")%char then Scanned (JArr (acc ++ [v])) r1
            else if (c =? ",")%char then scan_items f (acc ++ [v]) (skip_ws r1)
            else Malformed
        | [] => Malformed
        end
    | Malformed => Malformed
    | OutOfFuel => OutOfFuel
    end.
Proof. reflexivity. Qed.

Lemma scan_pairs_step f acc r :
  scan_pairs (S f) acc (dquote :: r)
  = match scanstring r with
    | Scanned key r1 =>
        match skip_ws r1 with
        | c :: r2 =>
            if (c =? ":")%char then
              match scan_once f (skip_ws r2) with
              | Scanned v r3 =>
                  match skip_ws r3 with
                  | c' :: r4 =>
                      if (c' =? "}")%char
                      then Scanned (JObj (dict_set key v acc)) r4
                      else if (c' =? ",")%char
                           then scan_pairs f (dict_set key v acc) (skip_ws r4)
                           else Malformed
                  | [] => Malformed
                  end
              | Malformed => Malformed
              | OutOfFuel => OutOfFuel
              end
            else Malformed
        | [] => Malformed
        end
    | Malformed => Malformed
    | OutOfFuel => OutOfFuel
    end.
Proof. reflexivity. Qed.

(** A number printed by the encoder is read back by [scan_once]. *)
Lemma scan_once_int f z rest :
  value_end rest -> scan_once (S f) (int_repr z ++ rest) = Scanned (JInt z) rest.
Proof.
  intros Hr. rewrite <- (scan_number_int z rest Hr).
  destruct z as [|p|p]; unfold int_repr.
  - reflexivity.
  - destruct (N_digits_text_cons (Z.to_N (Z.pos p))) as (d & r & ->).
    apply scan_once_digit.
  - destruct (N_digits_text_cons (N.pos p)) as (d & r & ->).
    apply scan_once_minus_digit.
Qed.

Lemma scan_once_float f x rest :
  value_end rest ->
  scan_once (S f) (float_repr x ++ rest) = Scanned (JFloat x) rest.
Proof.
  intros Hr. destruct x as [|[|]|neg ip t]; try reflexivity.
  rewrite <- (scan_number_float neg ip t rest Hr).
  unfold float_repr. destruct (N_digits_text_cons ip) as (d & r & ->).
  destruct neg; [apply scan_once_minus_digit|apply scan_once_digit].
Qed.

(* ------------------------------------------------------------------ *)
(** * What the encoder prints, the decoder reads back *)

Lemma starts_value_app s r : starts_value s -> starts_value (s ++ r).
Proof. intros (c & tl & -> & H). now exists c, (tl ++ r). Qed.

Lemma starts_value_join {A : Type} (enc : A -> pystr) sep x xs :
  (forall a, starts_value (enc a)) -> starts_value (join sep (map enc (x :: xs))).
Proof.
  intros H. destruct xs as [|y ys]; simpl; [apply H|].
  apply starts_value_app, H.
Qed.

Lemma starts_value_pair lvl kv : starts_value (pair_text lvl kv).
Proof. eexists _, _; repeat split; reflexivity. Qed.

Lemma value_end_sep lvl s : value_end (item_sep lvl ++ s).
Proof. now left. Qed.

Lemma value_end_indent lvl s : value_end (newline_indent lvl ++ s).
Proof. now right. Qed.

Lemma skip_ws_close_bracket lvl rest :
  skip_ws (newline_indent lvl ++ "]"%char :: rest) = "]"%char :: rest.
Proof. now rewrite skip_ws_indent. Qed.

Lemma skip_ws_close_brace lvl rest :
  skip_ws (newline_indent lvl ++ "}"%char :: rest) = "}"%char :: rest.
Proof. now rewrite skip_ws_indent. Qed.

Lemma length_item_sep lvl : 2 <= length (item_sep lvl).
Proof. simpl. lia. Qed.

Lemma scan_items_encoded lvl xs :
  Forall (fun x => keys_unique x = true -> reads_back x) xs ->
  forallb keys_unique xs = true ->
  xs <> [] ->
  forall acc rest f,
    2 * length (join (item_sep (S lvl)) (map (encode (S lvl)) xs)) + 1 < f ->
    scan_items f acc
      (join (item_sep (S lvl)) (map (encode (S lvl)) xs)
         ++ newline_indent lvl ++ "]"%char :: rest)
    = Scanned (JArr (acc ++ xs)) rest.
Proof.
  induction xs as [|x xs IH]; intros HP Hk Hne acc rest f Hf; [congruence|].
  inversion HP as [|? ? Hx HP']; subst.
  simpl in Hk. apply andb_true_iff in Hk as [Hkx Hk].
  destruct f as [|g]; [lia|]. rewrite scan_items_step.
  destruct xs as [|y ys].
  - cbn [map join] in *.
    rewrite (Hx Hkx (S lvl) _ g (value_end_indent lvl _)) by lia.
    rewrite skip_ws_close_bracket. reflexivity.
  - change (join (item_sep (S lvl)) (map (encode (S lvl)) (x :: y :: ys)))
      with (encode (S lvl) x ++ item_sep (S lvl)
              ++ join (item_sep (S lvl)) (map (encode (S lvl)) (y :: ys))) in *.
    rewrite !length_app in Hf. pose proof (length_item_sep (S lvl)) as Hs.
    rewrite <- !app_assoc.
    rewrite (Hx Hkx (S lvl) _ g (value_end_sep (S lvl) _)) by lia.
    unfold item_sep at 1. cbn [app skip_ws is_json_ws].
    change (is_json_ws ","%char) with false. cbv iota.
    change ((","%char =? "]")%char) with false.
    change ((","%char =? ",")%char) with true. cbv iota.
    rewrite skip_ws_indent.
    rewrite starts_value_skip
      by (apply (starts_value_join (encode (S lvl))), starts_value_encode).
    rewrite (IH HP' Hk ltac:(discriminate) (acc ++ [x]) rest g) by lia.
    now rewrite <- app_assoc.
Qed.

Lemma pair_text_app lvl k v more :
  pair_text lvl (k, v) ++ more
  = dquote :: flat_map escape_char k
      ++ dquote :: ":"%char :: " "%char :: encode lvl v ++ more.
Proof.
  unfold pair_text, encode_string. simpl. now rewrite <- !app_assoc.
Qed.

Lemma length_pair_text lvl k v :
  length (encode lvl v) + 4 <= length (pair_text lvl (k, v)).
Proof.
  unfold pair_text, encode_string. simpl. rewrite !length_app. simpl. lia.
Qed.

Lemma scan_pairs_encoded lvl kvs :
  Forall (fun kv => keys_unique (snd kv) = true -> reads_back (snd kv)) kvs ->
  forallb (fun kv => keys_unique (snd kv)) kvs = true ->
  NoDup (map fst kvs) ->
  kvs <> [] ->
  forall acc rest f,
    (forall k, In k (map fst kvs) -> ~ In k (map fst acc)) ->
    2 * length (join (item_sep (S lvl)) (map (pair_text (S lvl)) kvs)) + 1 < f ->
    scan_pairs f acc
      (join (item_sep (S lvl)) (map (pair_text (S lvl)) kvs)
         ++ newline_indent lvl ++ "}"%char :: rest)
    = Scanned (JObj (acc ++ kvs)) rest.
Proof.
  induction kvs as [|[k v] kvs IH];
    intros HP Hk Hnd Hne acc rest f Hacc Hf; [congruence|].
  inversion HP as [|? ? Hx HP']; subst.
  inversion Hnd as [|? ? Hfresh Hnd']; subst.
  simpl in Hk, Hx. apply andb_true_iff in Hk as [Hkx Hk].
  pose proof (length_pair_text (S lvl) k v) as Hlen.
  assert (Hset : dict_set k v acc = acc ++ [(k, v)])
    by (apply dict_set_fresh, Hacc; now left).
  destruct f as [|g]; [lia|].
  destruct kvs as [|kv' kvs'].
  - cbn [map join] in *. rewrite pair_text_app.
    rewrite scan_pairs_step, scanstring_encoded.
    cbn [skip_ws]. change (is_json_ws ":"%char) with false. cbv iota.
    change ((":"%char =? ":")%char) with true. cbv iota.
    cbn [skip_ws]. change (is_json_ws " "%char) with true. cbv iota.
    rewrite (starts_value_skip _ _ (starts_value_encode (S lvl) v)).
    rewrite (Hx Hkx (S lvl) _ g (value_end_indent lvl _)) by lia.
    rewrite skip_ws_close_brace, Hset. reflexivity.
  - change (join (item_sep (S lvl)) (map (pair_text (S lvl)) ((k, v) :: kv' :: kvs')))
      with (pair_text (S lvl) (k, v) ++ item_sep (S lvl)
              ++ join (item_sep (S lvl)) (map (pair_text (S lvl)) (kv' :: kvs')))
      in *.
    rewrite !length_app in Hf. pose proof (length_item_sep (S lvl)) as Hs.
    rewrite <- !app_assoc, pair_text_app.
    rewrite scan_pairs_step, scanstring_encoded.
    cbn [skip_ws]. change (is_json_ws ":"%char) with false. cbv iota.
    change ((":"%char =? ":")%char) with true. cbv iota.
    cbn [skip_ws]. change (is_json_ws " "%char) with true. cbv iota.
    rewrite (starts_value_skip _ _ (starts_value_encode (S lvl) v)).
    rewrite (Hx Hkx (S lvl) _ g (value_end_sep (S lvl) _)) by lia.
    unfold item_sep at 1. cbn [app skip_ws].
    change (is_json_ws ","%char) with false. cbv iota.
    change ((","%char =? "}")%char) with false.
    change ((","%char =? ",")%char) with true. cbv iota.
    rewrite skip_ws_indent.
    rewrite starts_value_skip
      by (apply (starts_value_join (pair_text (S lvl))), starts_value_pair).
    rewrite Hset.
    rewrite (IH HP' Hk Hnd' ltac:(discriminate) (acc ++ [(k, v)]) rest g).
    + now rewrite <- app_assoc.
    + intros k' Hin. rewrite map_app, in_app_iff. simpl.
      intros [Hin'|[<-|[]]].
      * apply (Hacc k'); [now right|exact Hin'].
      * exact (Hfresh Hin).
    + lia.
Qed.

Lemma encode_reads_back v : keys_unique v = true -> reads_back v.
Proof.
  induction v as [|b|z|x|s|l IH|l IH] using json_nested_ind;
    intros Hk lvl rest f Hr Hf; (destruct f as [|g]; [lia|]).
  - reflexivity.
  - destruct b; reflexivity.
  - now apply scan_once_int.
  - now apply scan_once_float.
  - cbn [encode]. unfold encode_string. cbn [app].
    rewrite scan_once_string, <- app_assoc. cbn [app].
    now rewrite scanstring_encoded.
  - destruct l as [|x xs]; [reflexivity|].
    change (encode lvl (JArr (x :: xs)))
      with ("["%char :: newline_indent (S lvl)
              ++ join (item_sep (S lvl)) (map (encode (S lvl)) (x :: xs))
              ++ newline_indent lvl ++ ["]"%char]) in *.
    cbn [app length] in *. rewrite !length_app in Hf.
    rewrite <- !app_assoc. cbn [app]. rewrite scan_once_array, skip_ws_indent.
    rewrite starts_value_skip
      by (apply (starts_value_join (encode (S lvl))), starts_value_encode).
    destruct (starts_value_join (encode (S lvl)) (item_sep (S lvl)) x xs
                (starts_value_encode (S lvl))) as (c & tl & E & _ & Hc & _).
    rewrite E at 1. cbn [app]. rewrite Hc. rewrite app_comm_cons, <- E.
    rewrite (scan_items_encoded lvl _ IH Hk ltac:(discriminate) [] rest g) by lia.
    reflexivity.
  - destruct l as [|kv kvs]; [reflexivity|].
    change (encode lvl (JObj (kv :: kvs)))
      with ("{"%char :: newline_indent (S lvl)
              ++ join (item_sep (S lvl)) (map (pair_text (S lvl)) (kv :: kvs))
              ++ newline_indent lvl ++ ["}"%char]) in *.
    cbn [app length] in *. rewrite !length_app in Hf.
    cbn [keys_unique] in Hk. apply andb_true_iff in Hk as [Hnd Hk].
    apply distinct_NoDup in Hnd.
    rewrite <- !app_assoc. cbn [app]. rewrite scan_once_object, skip_ws_indent.
    rewrite starts_value_skip
      by (apply (starts_value_join (pair_text (S lvl))), starts_value_pair).
    destruct (starts_value_join (pair_text (S lvl)) (item_sep (S lvl)) kv kvs
                (starts_value_pair (S lvl))) as (c & tl & E & _ & _ & Hc).
    rewrite E at 1. cbn [app]. rewrite Hc. rewrite app_comm_cons, <- E.
    rewrite (scan_pairs_encoded lvl _ IH Hk Hnd ltac:(discriminate) [] rest g);
      [reflexivity|intros ? _ []|lia].
Qed.

Lemma skip_ws_shorter s : length (skip_ws s) <= length s.
Proof. induction s as [|c s IH]; simpl; [lia|]. destruct (is_json_ws c); simpl; lia. Qed.

(** [json.loads] reads back what [json.dump] wrote. *)
Lemma json_decode_encode v :
  keys_unique v = true -> json_decode (json_encode v) = Some v.
Proof.
  intros Hk. unfold json_decode, json_encode.
  rewrite <- (app_nil_r (encode 0 v)) at 1 2.
  rewrite (starts_value_skip _ [] (starts_value_encode 0 v)).
  rewrite (encode_reads_back v Hk 0 [] _ I).
  - reflexivity.
  - unfold scan_fuel. rewrite app_nil_r. lia.
Qed.

(* ------------------------------------------------------------------ *)
(** * What the decoder builds has no key twice *)

Lemma dict_set_keys_In x k v d :
  In x (map fst (dict_set k v d)) -> x = k \/ In x (map fst d).
Proof.
  induction d as [|[k' v'] d IH]; simpl.
  - intros [<-|[]]. now left.
  - destruct (pystr_eqb_spec k k') as [->|_]; simpl.
    + intros [<-|H]; [now left|right; now right].
    + intros [<-|H]; [right; now left|].
      destruct (IH H) as [->|H']; [now left|right; now right].
Qed.

Lemma dict_set_NoDup k v d :
  NoDup (map fst d) -> NoDup (map fst (dict_set k v d)).
Proof.
  induction d as [|[k' v'] d IH]; simpl; intros H.
  - constructor; [intros []|constructor].
  - inversion H as [|? ? Hk' Hd]; subst.
    destruct (pystr_eqb_spec k k') as [->|Hne]; simpl.
    + now constructor.
    + constructor; [|now apply IH].
      intros Hin. destruct (dict_set_keys_In _ _ _ _ Hin) as [->|H'];
        [now apply Hne|now apply Hk'].
Qed.

Lemma dict_set_values k v d :
  keys_unique v = true ->
  forallb (fun kv => keys_unique (snd kv)) d = true ->
  forallb (fun kv => keys_unique (snd kv)) (dict_set k v d) = true.
Proof.
  intros Hv. induction d as [|[k' v'] d IH]; simpl.
  - now rewrite Hv.
  - rewrite andb_true_iff. intros [H1 H2].
    destruct (pystr_eqb k k'); simpl; rewrite ?Hv, ?H1; simpl; auto.
Qed.

Lemma scan_number_keys_unique s v r :
  scan_number s = Scanned v r -> keys_unique v = true.
Proof.
  unfold scan_number.
  destruct (match s with
            | [] => (false, s)
            | c :: r0 => if (c =? "-")%char then (true, r0) else (false, s)
            end) as [neg s0].
  destruct (scan_int_part s0) as [[ip s1]|]; [|discriminate].
  destruct (scan_frac s1) as [fr s2]. destruct (scan_exp s2) as [ex s3].
  destruct fr, ex; intros H; inversion H; reflexivity.
Qed.

Lemma scan_word_keys_unique w v0 s v r :
  keys_unique v0 = true -> scan_word w v0 s = Scanned v r -> keys_unique v = true.
Proof.
  unfold scan_word. intros H0. destruct (strip_prefix w s); [|discriminate].
  intros H; inversion H; now subst.
Qed.

Lemma dict_ok_keys_unique d : dict_ok d -> keys_unique (JObj d) = true.
Proof.
  intros [H1 H2]. simpl. apply andb_true_iff. split; [|exact H2].
  now apply distinct_NoDup.
Qed.

Lemma scan_keys_unique f :
  (forall s v r, scan_once f s = Scanned v r -> keys_unique v = true)
  /\ (forall acc s v r,
         scan_pairs f acc s = Scanned v r -> dict_ok acc -> keys_unique v = true)
  /\ (forall acc s v r,
         scan_items f acc s = Scanned v r ->
         forallb keys_unique acc = true -> keys_unique v = true).
Proof.
  induction f as [|f (IHo & IHp & IHi)];
    [repeat split; intros; discriminate|].
  split; [|split].
  - intros s v r H. cbn [scan_once] in H.
    destruct s as [|c s']; [discriminate|].
    destruct (c =? dquote)%char.
    { destruct (scanstring s'); inversion H; reflexivity. }
    destruct (c =? "{")%char.
    { destruct (skip_ws s') as [|c1 r1]; [discriminate|].
      destruct (c1 =? "}")%char; [inversion H; reflexivity|].
      apply (IHp _ _ _ _ H). split; [constructor|reflexivity]. }
    destruct (c =? "[")%char.
    { destruct (skip_ws s') as [|c1 r1]; [discriminate|].
      destruct (c1 =? "]")%char; [inversion H; reflexivity|].
      now apply (IHi _ _ _ _ H). }
    destruct (c =? "n")%char; [eapply scan_word_keys_unique in H; [exact H|reflexivity]|].
    destruct (c =? "t")%char; [eapply scan_word_keys_unique in H; [exact H|reflexivity]|].
    destruct (c =? "f")%char; [eapply scan_word_keys_unique in H; [exact H|reflexivity]|].
    destruct (c =? "N")%char; [eapply scan_word_keys_unique in H; [exact H|reflexivity]|].
    destruct (c =? "I")%char; [eapply scan_word_keys_unique in H; [exact H|reflexivity]|].
    destruct (strip_prefix (str "-Infinity") (c :: s'));
      [inversion H; reflexivity|].
    now apply (scan_number_keys_unique _ _ _ H).
  - intros acc s v r H [Hnd Hv]. cbn [scan_pairs] in H.
    destruct s as [|q s']; [discriminate|].
    destruct (q =? dquote)%char; [|discriminate].
    destruct (scanstring s') as [key r1| |]; try discriminate.
    destruct (skip_ws r1) as [|c r2]; [discriminate|].
    destruct (c =? ":")%char; [|discriminate].
    destruct (scan_once f (skip_ws r2)) as [v1 r3| |] eqn:E1; try discriminate.
    assert (Hok : dict_ok (dict_set key v1 acc)).
    { split; [now apply dict_set_NoDup|].
      apply dict_set_values; [exact (IHo _ _ _ E1)|exact Hv]. }
    destruct (skip_ws r3) as [|c' r4]; [discriminate|].
    destruct (c' =? "}")%char.
    { inversion H; subst. now apply dict_ok_keys_unique. }
    destruct (c' =? ",")%char; [|discriminate].
    exact (IHp _ _ _ _ H Hok).
  - intros acc s v r H Hacc. cbn [scan_items] in H.
    destruct (scan_once f s) as [v1 r1| |] eqn:E1; try discriminate.
    assert (Hacc' : forallb keys_unique (acc ++ [v1]) = true).
    { rewrite forallb_app, Hacc. simpl. now rewrite (IHo _ _ _ E1). }
    destruct (skip_ws r1) as [|c r2]; [discriminate|].
    destruct (c =? "]")%char; [inversion H; subst; exact Hacc'|].
    destruct (c =? ",")%char; [|discriminate].
    exact (IHi _ _ _ _ H Hacc').
Qed.

Lemma json_decode_keys_unique t v :
  json_decode t = Some v -> keys_unique v = true.
Proof.
  unfold json_decode.
  destruct (scan_once (scan_fuel (skip_ws t)) (skip_ws t)) as [v' r| |] eqn:E;
    try discriminate.
  destruct (skip_ws r); [|discriminate].
  intros H; inversion H; subst.
  exact (proj1 (scan_keys_unique _) _ _ _ E).
Qed.

(* ------------------------------------------------------------------ *)
(** * The fuel of [json_decode] is never used up *)

Lemma strip_prefix_length w s r :
  strip_prefix w s = Some r -> length r + length w = length s.
Proof.
  revert s. induction w as [|a w IH]; intros [|b s]; simpl; intros H;
    try discriminate; try (inversion H; subst; simpl; lia).
  destruct (a =? b)%char; [|discriminate]. apply IH in H. lia.
Qed.

Lemma scanstring_shorter s k r :
  scanstring s = Scanned k r -> length r < length s.
Proof.
  remember (length s) as n eqn:En.
  assert (Hn : length s <= n) by lia. clear En.
  revert s k r Hn. induction n as [|n IH]; intros s k r Hn.
  - destruct s; [discriminate|simpl in Hn; lia].
  - destruct s as [|c s1]; [discriminate|]. cbn [scanstring]. simpl in Hn.
    destruct (c =? dquote)%char; [intros H; inversion H; subst; simpl; lia|].
    destruct (c =? "\")%char.
    + destruct s1 as [|e s2]; [discriminate|]. simpl in Hn.
      destruct (e =? "u")%char.
      * destruct s2 as [|h1 [|h2 [|h3 [|h4 s3]]]]; try discriminate.
        destruct (hex4 h1 h2 h3 h4); [|discriminate].
        destruct (scanstring s3) as [k' r'| |] eqn:E; try discriminate.
        intros H; inversion H; subst. apply IH in E; simpl in *; lia.
      * destruct (unescape e); [|discriminate].
        destruct (scanstring s2) as [k' r'| |] eqn:E; try discriminate.
        intros H; inversion H; subst. apply IH in E; simpl in *; lia.
    + destruct (N_of_ascii c <? 32)%N; [discriminate|].
      destruct (scanstring s1) as [k' r'| |] eqn:E; try discriminate.
      intros H; inversion H; subst. apply IH in E; simpl in *; lia.
Qed.

Lemma scanstring_fuel s : scanstring s <> OutOfFuel.
Proof.
  remember (length s) as n eqn:En.
  assert (Hn : length s <= n) by lia. clear En.
  revert s Hn. induction n as [|n IH]; intros s Hn.
  - destruct s; [discriminate|simpl in Hn; lia].
  - destruct s as [|c s1]; [discriminate|]. cbn [scanstring]. simpl in Hn.
    destruct (c =? dquote)%char; [discriminate|].
    destruct (c =? "\")%char.
    + destruct s1 as [|e s2]; [discriminate|]. simpl in Hn.
      destruct (e =? "u")%char.
      * destruct s2 as [|h1 [|h2 [|h3 [|h4 s3]]]]; try discriminate.
        destruct (hex4 h1 h2 h3 h4); [|discriminate].
        specialize (IH s3 ltac:(simpl in *; lia)).
        destruct (scanstring s3); [discriminate|discriminate|congruence].
      * destruct (unescape e); [|discriminate].
        specialize (IH s2 ltac:(lia)).
        destruct (scanstring s2); [discriminate|discriminate|congruence].
    + destruct (N_of_ascii c <? 32)%N; [discriminate|].
      specialize (IH s1 ltac:(lia)).
      destruct (scanstring s1); [discriminate|discriminate|congruence].
Qed.

Lemma span_digits_length s ds r :
  span_digits s = (ds, r) -> length r <= length s.
Proof.
  revert ds r. induction s as [|c s IH]; simpl; intros ds r H.
  - inversion H; subst; simpl; lia.
  - destruct (char_digit c); [|inversion H; subst; simpl; lia].
    destruct (span_digits s) as [ds' r'] eqn:E. inversion H; subst.
    specialize (IH _ _ eq_refl). lia.
Qed.

Lemma scan_int_part_length s n r :
  scan_int_part s = Some (n, r) -> length r < length s.
Proof.
  destruct s as [|c s]; [discriminate|]. simpl.
  destruct (char_digit c) as [d|]; [|discriminate].
  destruct (span_digits s) as [ds r'] eqn:E.
  apply span_digits_length in E.
  destruct d; intros H; inversion H; subst; simpl; lia.
Qed.

Lemma scan_frac_length s fr r : scan_frac s = (fr, r) -> length r <= length s.
Proof.
  destruct s as [|p [|c s]]; simpl; try (intros H; inversion H; subst; simpl; lia).
  destruct (p =? ".")%char; [|intros H; inversion H; subst; simpl; lia].
  destruct (char_digit c); [|intros H; inversion H; subst; simpl; lia].
  destruct (span_digits s) as [ds r'] eqn:E. apply span_digits_length in E.
  intros H; inversion H; subst; simpl; lia.
Qed.

Lemma scan_exp_length s ex r : scan_exp s = (ex, r) -> length r <= length s.
Proof.
  destruct s as [|e s]; simpl; [intros H; inversion H; subst; simpl; lia|].
  destruct ((e =? "e") || (e =? "E"))%char;
    [|intros H; inversion H; subst; simpl; lia].
  destruct (scan_exp_sign s) as [sg r1] eqn:Es.
  assert (H1 : length r1 <= length s).
  { unfold scan_exp_sign in Es. destruct s as [|c s'].
    - inversion Es; subst; simpl; lia.
    - destruct (c =? "+")%char; [inversion Es; subst; simpl; lia|].
      destruct (c =? "-")%char; inversion Es; subst; simpl; lia. }
  destruct r1 as [|c r2]; [intros H; inversion H; subst; simpl; lia|].
  destruct (char_digit c); [|intros H; inversion H; subst; simpl; lia].
  destruct (span_digits r2) as [ds r3] eqn:E. apply span_digits_length in E.
  intros H; inversion H; subst; simpl in *; lia.
Qed.

Lemma scan_number_shorter s v r :
  scan_number s = Scanned v r -> length r < length s.
Proof.
  unfold scan_number.
  destruct (match s with
            | [] => (false, s)
            | c :: r0 => if (c =? "-")%char then (true, r0) else (false, s)
            end) as [neg s0] eqn:E0.
  assert (H0 : length s0 <= length s).
  { destruct s as [|c s']; [inversion E0; subst; simpl; lia|].
    destruct (c =? "-")%char; inversion E0; subst; simpl; lia. }
  destruct (scan_int_part s0) as [[ip s1]|] eqn:E1; [|discriminate].
  apply scan_int_part_length in E1.
  destruct (scan_frac s1) as [fr s2] eqn:E2. apply scan_frac_length in E2.
  destruct (scan_exp s2) as [ex s3] eqn:E3. apply scan_exp_length in E3.
  destruct fr, ex; intros H; inversion H; subst; lia.
Qed.

Lemma scan_number_fuel s : scan_number s <> OutOfFuel.
Proof.
  unfold scan_number.
  destruct (match s with
            | [] => (false, s)
            | c :: r0 => if (c =? "-")%char then (true, r0) else (false, s)
            end) as [neg s0].
  destruct (scan_int_part s0) as [[ip s1]|]; [|discriminate].
  destruct (scan_frac s1) as [fr s2]. destruct (scan_exp s2) as [ex s3].
  destruct fr, ex; discriminate.
Qed.

Lemma scan_word_shorter w v0 s v r :
  w <> [] -> scan_word w v0 s = Scanned v r -> length r < length s.
Proof.
  unfold scan_word. intros Hw. destruct (strip_prefix w s) eqn:E; [|discriminate].
  apply strip_prefix_length in E. intros H; inversion H; subst.
  destruct w; [congruence|simpl in E; lia].
Qed.

Lemma scan_word_fuel w v0 s : scan_word w v0 s <> OutOfFuel.
Proof. unfold scan_word. destruct (strip_prefix w s); discriminate. Qed.

Lemma scan_shorter f :
  (forall s v r, scan_once f s = Scanned v r -> length r < length s)
  /\ (forall acc s v r,
         scan_pairs f acc s = Scanned v r -> length r < length s)
  /\ (forall acc s v r,
         scan_items f acc s = Scanned v r -> length r < length s).
Proof.
  induction f as [|f (IHo & IHp & IHi)];
    [repeat split; intros; discriminate|].
  split; [|split].
  - intros s v r H. cbn [scan_once] in H.
    destruct s as [|c s']; [discriminate|].
    destruct (c =? dquote)%char.
    { destruct (scanstring s') eqn:E; inversion H; subst.
      apply scanstring_shorter in E. simpl; lia. }
    destruct (c =? "{")%char.
    { pose proof (skip_ws_shorter s') as Hs.
      destruct (skip_ws s') as [|c1 r1]; [discriminate|].
      destruct (c1 =? "}")%char; [inversion H; subst; simpl in *; lia|].
      apply IHp in H. simpl in *; lia. }
    destruct (c =? "[")%char.
    { pose proof (skip_ws_shorter s') as Hs.
      destruct (skip_ws s') as [|c1 r1]; [discriminate|].
      destruct (c1 =? "]")%char; [inversion H; subst; simpl in *; lia|].
      apply IHi in H. simpl in *; lia. }
    destruct (c =? "n")%char; [now apply scan_word_shorter in H|].
    destruct (c =? "t")%char; [now apply scan_word_shorter in H|].
    destruct (c =? "f")%char; [now apply scan_word_shorter in H|].
    destruct (c =? "N")%char; [now apply scan_word_shorter in H|].
    destruct (c =? "I")%char; [now apply scan_word_shorter in H|].
    destruct (strip_prefix (str "-Infinity") (c :: s')) eqn:E.
    { apply strip_prefix_length in E. inversion H; subst. simpl in *; lia. }
    now apply scan_number_shorter in H.
  - intros acc s v r H. cbn [scan_pairs] in H.
    destruct s as [|q s']; [discriminate|].
    destruct (q =? dquote)%char; [|discriminate].
    destruct (scanstring s') as [key r1| |] eqn:E0; try discriminate.
    apply scanstring_shorter in E0.
    pose proof (skip_ws_shorter r1) as Hs1.
    destruct (skip_ws r1) as [|c r2]; [discriminate|].
    destruct (c =? ":")%char; [|discriminate].
    pose proof (skip_ws_shorter r2) as Hs2.
    destruct (scan_once f (skip_ws r2)) as [v1 r3| |] eqn:E1; try discriminate.
    apply IHo in E1.
    pose proof (skip_ws_shorter r3) as Hs3.
    destruct (skip_ws r3) as [|c' r4]; [discriminate|].
    destruct (c' =? "}")%char; [inversion H; subst; simpl in *; lia|].
    destruct (c' =? ",")%char; [|discriminate].
    apply IHp in H. pose proof (skip_ws_shorter r4). simpl in *; lia.
  - intros acc s v r H. cbn [scan_items] in H.
    destruct (scan_once f s) as [v1 r1| |] eqn:E1; try discriminate.
    apply IHo in E1.
    pose proof (skip_ws_shorter r1) as Hs1.
    destruct (skip_ws r1) as [|c r2]; [discriminate|].
    destruct (c =? "]")%char; [inversion H; subst; simpl in *; lia|].
    destruct (c =? ",")%char; [|discriminate].
    apply IHi in H. pose proof (skip_ws_shorter r2). simpl in *; lia.
Qed.

Lemma scan_fuel_enough f :
  (forall s, 2 * length s + 1 <= f -> scan_once f s <> OutOfFuel)
  /\ (forall acc s, 2 * length s + 2 <= f -> scan_pairs f acc s <> OutOfFuel)
  /\ (forall acc s, 2 * length s + 2 <= f -> scan_items f acc s <> OutOfFuel).
Proof.
  induction f as [|f (IHo & IHp & IHi)];
    [repeat split; intros; lia|].
  split; [|split].
  - intros s Hf. cbn [scan_once].
    destruct s as [|c s']; [discriminate|]. simpl in Hf.
    destruct (c =? dquote)%char.
    { pose proof (scanstring_fuel s'). destruct (scanstring s');
        simpl; congruence. }
    destruct (c =? "{")%char.
    { pose proof (skip_ws_shorter s') as Hs.
      destruct (skip_ws s') as [|c1 r1]; [discriminate|].
      destruct (c1 =? "}")%char; [discriminate|].
      apply IHp. simpl in *; lia. }
    destruct (c =? "[")%char.
    { pose proof (skip_ws_shorter s') as Hs.
      destruct (skip_ws s') as [|c1 r1]; [discriminate|].
      destruct (c1 =? "]")%char; [discriminate|].
      apply IHi. simpl in *; lia. }
    destruct (c =? "n")%char; [apply scan_word_fuel|].
    destruct (c =? "t")%char; [apply scan_word_fuel|].
    destruct (c =? "f")%char; [apply scan_word_fuel|].
    destruct (c =? "N")%char; [apply scan_word_fuel|].
    destruct (c =? "I")%char; [apply scan_word_fuel|].
    destruct (strip_prefix (str "-Infinity") (c :: s')); [discriminate|].
    apply scan_number_fuel.
  - intros acc s Hf. cbn [scan_pairs].
    destruct s as [|q s']; [discriminate|]. simpl in Hf.
    destruct (q =? dquote)%char; [|discriminate].
    pose proof (scanstring_fuel s') as Hsf.
    destruct (scanstring s') as [key r1| |] eqn:E0; [|discriminate|congruence].
    apply scanstring_shorter in E0.
    pose proof (skip_ws_shorter r1) as Hs1.
    destruct (skip_ws r1) as [|c r2]; [discriminate|].
    destruct (c =? ":")%char; [|discriminate].
    pose proof (skip_ws_shorter r2) as Hs2.
    pose proof (IHo (skip_ws r2) ltac:(simpl in *; lia)) as Ho.
    destruct (scan_once f (skip_ws r2)) as [v1 r3| |] eqn:E1;
      [|discriminate|congruence].
    apply (proj1 (scan_shorter f)) in E1.
    pose proof (skip_ws_shorter r3) as Hs3.
    destruct (skip_ws r3) as [|c' r4]; [discriminate|].
    destruct (c' =? "}")%char; [discriminate|].
    destruct (c' =? ",")%char; [|discriminate].
    apply IHp. pose proof (skip_ws_shorter r4). simpl in *; lia.
  - intros acc s Hf. cbn [scan_items].
    pose proof (IHo s ltac:(lia)) as Ho.
    destruct (scan_once f s) as [v1 r1| |] eqn:E1; [|discriminate|congruence].
    apply (proj1 (scan_shorter f)) in E1.
    pose proof (skip_ws_shorter r1) as Hs1.
    destruct (skip_ws r1) as [|c r2]; [discriminate|].
    destruct (c =? "]")%char; [discriminate|].
    destruct (c =? ",")%char; [|discriminate].
    apply IHi. pose proof (skip_ws_shorter r2). simpl in *; lia.
Qed.

(** A scan that did not run out of fuel gives the same result with more. *)
Lemma scan_more_fuel f :
  (forall s g, f <= g -> scan_once f s <> OutOfFuel ->
               scan_once g s = scan_once f s)
  /\ (forall acc s g, f <= g -> scan_pairs f acc s <> OutOfFuel ->
                      scan_pairs g acc s = scan_pairs f acc s)
  /\ (forall acc s g, f <= g -> scan_items f acc s <> OutOfFuel ->
                      scan_items g acc s = scan_items f acc s).
Proof.
  induction f as [|f (IHo & IHp & IHi)];
    [repeat split; intros;
     match goal with H : _ <> _ |- _ => now elim H end|].
  split; [|split].
  - intros s [|g] Hg H; [lia|]. apply le_S_n in Hg. cbn [scan_once] in H |- *.
    destruct s as [|c s']; [reflexivity|].
    destruct (c =? dquote)%char; [reflexivity|].
    destruct (c =? "{")%char.
    { destruct (skip_ws s') as [|c1 r1]; [reflexivity|].
      destruct (c1 =? "}")%char; [reflexivity|]. now apply IHp. }
    destruct (c =? "[")%char.
    { destruct (skip_ws s') as [|c1 r1]; [reflexivity|].
      destruct (c1 =? "]")%char; [reflexivity|]. now apply IHi. }
    reflexivity.
  - intros acc s [|g] Hg H; [lia|]. apply le_S_n in Hg.
    cbn [scan_pairs] in H |- *.
    destruct s as [|q s']; [reflexivity|].
    destruct (q =? dquote)%char; [|reflexivity].
    destruct (scanstring s') as [key r1| |]; try reflexivity.
    destruct (skip_ws r1) as [|c r2]; [reflexivity|].
    destruct (c =? ":")%char; [|reflexivity].
    destruct (scan_once f (skip_ws r2)) as [v1 r3| |] eqn:E1.
    + rewrite (IHo _ g Hg) by congruence. rewrite E1.
      destruct (skip_ws r3) as [|c' r4]; [reflexivity|].
      destruct (c' =? "}")%char; [reflexivity|].
      destruct (c' =? ",")%char; [|reflexivity]. now apply IHp.
    + rewrite (IHo _ g Hg) by congruence. now rewrite E1.
    + congruence.
  - intros acc s [|g] Hg H; [lia|]. apply le_S_n in Hg.
    cbn [scan_items] in H |- *.
    destruct (scan_once f s) as [v1 r1| |] eqn:E1.
    + rewrite (IHo _ g Hg) by congruence. rewrite E1.
      destruct (skip_ws r1) as [|c r2]; [reflexivity|].
      destruct (c =? "]")%char; [reflexivity|].
      destruct (c =? ",")%char; [|reflexivity]. now apply IHi.
    + rewrite (IHo _ g Hg) by congruence. now rewrite E1.
    + congruence.
Qed.

(** [json_decode] never runs out of fuel, and more fuel than [scan_fuel]
    would change nothing: it answers [None] only for a malformed text. *)
Lemma json_decode_any_fuel s g :
  scan_fuel (skip_ws s) <= g ->
  scan_once g (skip_ws s) = scan_once (scan_fuel (skip_ws s)) (skip_ws s).
Proof.
  intros Hg. apply (proj1 (scan_more_fuel _)); [exact Hg|].
  apply (proj1 (scan_fuel_enough _)). unfold scan_fuel. lia.
Qed.

(** [json_decode] answers [None] only for a malformed text. *)
Lemma json_decode_fuel s :
  scan_once (scan_fuel (skip_ws s)) (skip_ws s) <> OutOfFuel.
Proof. apply (proj1 (scan_fuel_enough _)). unfold scan_fuel. lia. Qed.

(* ------------------------------------------------------------------ *)
(** * The matcher on the pattern of the analyzer *)

Lemma strip_prefix_app p s : strip_prefix p (p ++ s) = Some s.
Proof.
  induction p as [|a p IH]; simpl; [now destruct s|].
  now rewrite Ascii.eqb_refl.
Qed.

Lemma strip_prefix_one a s : strip_prefix [a] (a :: s) = Some s.
Proof. exact (strip_prefix_app [a] s). Qed.

Lemma strip_prefix_head a p c s :
  a <> c -> strip_prefix (a :: p) (c :: s) = None.
Proof. intros H. simpl. apply Ascii.eqb_neq in H. now rewrite H. Qed.

Lemma strip_prefix_suffix p s r :
  strip_prefix p s = Some r -> s = p ++ r.
Proof.
  revert s. induction p as [|a p IH]; intros [|b s]; simpl; intros H;
    try discriminate; try (now inversion H).
  destruct (Ascii.eqb_spec a b) as [->|_]; [|discriminate].
  now rewrite (IH _ H).
Qed.

Lemma consumed_app a s : consumed (a ++ s) s = a.
Proof.
  unfold consumed. rewrite length_app.
  replace (length a + length s - length s) with (length a) by lia.
  rewrite firstn_app, firstn_all, Nat.sub_diag. simpl. apply app_nil_r.
Qed.

(** A starred class fails when the continuation fails on every suffix. *)
Lemma star_none {R : Type} p s (k : pystr -> option R) :
  (forall n, k (skipn n s) = None) -> star p s k = None.
Proof.
  induction s as [|c s IH]; intros H; simpl.
  - exact (H 0).
  - destruct (p c); [|exact (H 0)].
    rewrite IH; [exact (H 0)|]. intros n. exact (H (S n)).
Qed.

(** A starred class that succeeds has stopped at some suffix. *)
Lemma star_some {R : Type} p s (k : pystr -> option R) x :
  star p s k = Some x -> exists a b, s = a ++ b /\ k b = Some x.
Proof.
  induction s as [|c s IH]; simpl; intros H.
  - now exists [], [].
  - destruct (p c); [|now exists [], (c :: s)].
    destruct (star p s k) as [y|] eqn:E.
    + inversion H; subst. destruct (IH eq_refl) as (a & b & -> & Hb).
      now exists (c :: a), b.
    + now exists [], (c :: s).
Qed.

(** [.*] runs to the last place where the continuation succeeds: here,
    past [body] when the continuation fails everywhere after [c]. *)
Lemma star_any_last {R : Type} body c post (k : pystr -> option R) x :
  (forall n, k (skipn n post) = None) ->
  k (c :: post) = Some x ->
  star any_char (body ++ c :: post) k = Some x.
Proof.
  intros Hpost Hk. induction body as [|b body IH]; simpl.
  - now rewrite (star_none any_char post k Hpost).
  - now rewrite IH.
Qed.

Lemma star_space_all {R : Type} ws s (k : pystr -> option R) x :
  forallb is_space ws = true -> not_space_head s -> k s = Some x ->
  star is_space (ws ++ s) k = Some x.
Proof.
  intros Hws Hs Hk. induction ws as [|c ws IH]; simpl.
  - destruct s as [|c s']; simpl; [exact Hk|].
    simpl in Hs. now rewrite Hs.
  - simpl in Hws. apply andb_true_iff in Hws as [Hc Hws].
    now rewrite Hc, (IH Hws).
Qed.

Lemma In_skipn {A : Type} (x : A) n l : In x (skipn n l) -> In x l.
Proof.
  revert l. induction n as [|n IH]; intros [|a l]; simpl; auto.
Qed.

Lemma strip_prefix_absent a p s :
  ~ In a s -> strip_prefix (a :: p) s = None.
Proof.
  destruct s as [|c s]; intros H; [reflexivity|].
  apply strip_prefix_head. intros ->. apply H. now left.
Qed.

(** [\{.*\}] in front of a text without closing brace: the span ends at
    the brace before that text. *)
Lemma rmatch_brace_span {R : Type} body tail caps
      (k : pystr -> groups -> option R) x :
  ~ In "}"%char tail ->
  k tail caps = Some x ->
  rmatch brace_span ("{"%char :: body ++ "}"%char :: tail) caps k = Some x.
Proof.
  intros Htail Hk. unfold brace_span. cbn [rmatch].
  change (str "{") with ["{"%char]. change (str "}") with ["}"%char].
  rewrite strip_prefix_one.
  apply star_any_last.
  - intros n. rewrite strip_prefix_absent; [reflexivity|].
    intros Hin. apply Htail. exact (In_skipn _ _ _ Hin).
  - now rewrite strip_prefix_one.
Qed.

Lemma rmatch_group_brace {R : Type} i body tail caps
      (k : pystr -> groups -> option R) x :
  ~ In "}"%char tail ->
  k tail ((i, "{"%char :: body ++ ["}"%char]) :: caps) = Some x ->
  rmatch (RGroup i brace_span) ("{"%char :: body ++ "}"%char :: tail) caps k
  = Some x.
Proof.
  intros Htail Hk. cbn [rmatch]. apply rmatch_brace_span; [exact Htail|].
  replace ("{"%char :: body ++ "}"%char :: tail)
    with (("{"%char :: body ++ ["}"%char]) ++ tail)
    by (simpl; now rewrite <- app_assoc).
  now rewrite consumed_app.
Qed.

Lemma rmatch_seq {R : Type} r1 r2 s caps (k : pystr -> groups -> option R) :
  rmatch (RSeq r1 r2) s caps k
  = rmatch r1 s caps (fun s' caps' => rmatch r2 s' caps' k).
Proof. reflexivity. Qed.

Lemma rmatch_lit {R : Type} l s caps (k : pystr -> groups -> option R) :
  rmatch (RLit l) (l ++ s) caps k = k s caps.
Proof. cbn [rmatch]. now rewrite strip_prefix_app. Qed.

Lemma rmatch_lit_head {R : Type} a l c s caps
      (k : pystr -> groups -> option R) :
  a <> c -> rmatch (RLit (a :: l)) (c :: s) caps k = None.
Proof. intros H. cbn [rmatch]. now rewrite strip_prefix_head. Qed.

Lemma rmatch_star {R : Type} p s caps (k : pystr -> groups -> option R) :
  rmatch (RStar p) s caps k = star p s (fun s' => k s' caps).
Proof. reflexivity. Qed.

Lemma rmatch_alt_left {R : Type} r1 r2 s caps
      (k : pystr -> groups -> option R) x :
  rmatch r1 s caps k = Some x -> rmatch (RAlt r1 r2) s caps k = Some x.
Proof. intros H. cbn [rmatch]. now rewrite H. Qed.

Lemma rmatch_alt_right {R : Type} r1 r2 s caps
      (k : pystr -> groups -> option R) :
  rmatch r1 s caps k = None ->
  rmatch (RAlt r1 r2) s caps k = rmatch r2 s caps k.
Proof. intros H. cbn [rmatch]. now rewrite H. Qed.

Lemma re_match_plain c s :
  plain_char c = true -> re_match json_pattern (c :: s) = None.
Proof.
  unfold plain_char. rewrite negb_true_iff, orb_false_iff. intros [H1 H2].
  apply Ascii.eqb_neq in H1, H2.
  unfold re_match, json_pattern. rewrite rmatch_alt_right.
  - cbn [rmatch]. unfold brace_span. rewrite rmatch_seq.
    apply rmatch_lit_head. congruence.
  - rewrite rmatch_seq. apply rmatch_lit_head. congruence.
Qed.

Lemma re_search_plain pre s :
  forallb plain_char pre = true ->
  re_search json_pattern (pre ++ s) = re_search json_pattern s.
Proof.
  induction pre as [|c pre IH]; simpl; [reflexivity|].
  rewrite andb_true_iff. intros [Hc Hpre].
  now rewrite re_match_plain, IH.
Qed.

Lemma re_search_here r s m : re_match r s = Some m -> re_search r s = Some m.
Proof. intros H. destruct s; simpl; now rewrite H. Qed.

Lemma forallb_space_no_brace ws :
  forallb is_space ws = true -> ~ In "}"%char ws.
Proof.
  intros H Hin. rewrite forallb_forall in H. specialize (H _ Hin). discriminate.
Qed.

(** (a) The fenced alternative. *)
Lemma re_search_fenced pre ws1 body ws2 post :
  forallb plain_char pre = true ->
  forallb is_space ws1 = true ->
  forallb is_space ws2 = true ->
  ~ In "}"%char post ->
  re_search json_pattern
    (pre ++ fence_open ++ ws1 ++ "{"%char :: body ++ "}"%char
         :: ws2 ++ fence_close ++ post)
  = Some [(1, "{"%char :: body ++ ["}"%char])].
Proof.
  intros Hpre H1 H2 Hpost. rewrite re_search_plain by exact Hpre.
  apply re_search_here. unfold re_match, json_pattern.
  apply rmatch_alt_left.
  rewrite rmatch_seq, rmatch_lit, rmatch_seq, rmatch_star.
  apply star_space_all; [exact H1|reflexivity|].
  rewrite rmatch_seq. apply rmatch_group_brace.
  - rewrite in_app_iff. intros [Hin|Hin].
    + now apply (forallb_space_no_brace ws2).
    + apply in_app_iff in Hin as [Hin|Hin]; [|now apply Hpost].
      simpl in Hin. repeat (destruct Hin as [Hin|Hin]; [discriminate|]).
      exact Hin.
  - rewrite rmatch_seq, rmatch_star.
    apply star_space_all; [exact H2|reflexivity|].
    now rewrite rmatch_lit.
Qed.

(** (b) The bare alternative. *)
Lemma re_search_bare pre body post :
  forallb plain_char pre = true ->
  ~ In "}"%char post ->
  re_search json_pattern (pre ++ "{"%char :: body ++ "}"%char :: post)
  = Some [(2, "{"%char :: body ++ ["}"%char])].
Proof.
  intros Hpre Hpost. rewrite re_search_plain by exact Hpre.
  apply re_search_here. unfold re_match, json_pattern.
  rewrite rmatch_alt_right.
  - now apply rmatch_group_brace.
  - rewrite rmatch_seq. now apply rmatch_lit_head.
Qed.

Lemma has_brace_span_app pre s : has_brace_span s -> has_brace_span (pre ++ s).
Proof.
  intros (a & m & b & ->). exists (pre ++ a), m, b. now rewrite <- app_assoc.
Qed.

Lemma rmatch_brace_span_sound {R : Type} s caps
      (k : pystr -> groups -> option R) x :
  rmatch brace_span s caps k = Some x -> has_brace_span s.
Proof.
  unfold brace_span. rewrite rmatch_seq. cbn [rmatch].
  destruct (strip_prefix (str "{") s) as [s1|] eqn:E1; [|discriminate].
  apply strip_prefix_suffix in E1. intros H.
  apply star_some in H as (a & b & -> & Hb).
  destruct (strip_prefix (str "}") b) as [s3|] eqn:E3; [|discriminate].
  apply strip_prefix_suffix in E3. subst. now exists [], a, s3.
Qed.

Lemma re_match_sound s m :
  re_match json_pattern s = Some m -> has_brace_span s.
Proof.
  unfold re_match, json_pattern. cbn [rmatch].
  destruct (strip_prefix fence_open s) as [s1|] eqn:E1.
  - apply strip_prefix_suffix in E1.
    match goal with
    | |- match ?t with _ => _ end = _ -> _ => destruct t as [y|] eqn:E
    end.
    + intros _. apply star_some in E as (a & b & -> & Hb).
      apply rmatch_brace_span_sound in Hb. subst s.
      now apply has_brace_span_app, has_brace_span_app.
    + apply rmatch_brace_span_sound.
  - apply rmatch_brace_span_sound.
Qed.

Lemma re_search_sound s m :
  re_search json_pattern s = Some m -> has_brace_span s.
Proof.
  induction s as [|c s IH]; simpl.
  - destruct (re_match json_pattern []) eqn:E; [|discriminate].
    intros _. now apply re_match_sound in E.
  - destruct (re_match json_pattern (c :: s)) eqn:E.
    + intros _. now apply re_match_sound in E.
    + intros H. apply (has_brace_span_app [c]). now apply IH.
Qed.

Lemma split_last_occurrence (x : ascii) l :
  In x l -> exists a b, l = a ++ x :: b /\ ~ In x b.
Proof.
  induction l as [|c l IH]; [intros []|].
  intros Hin. destruct (in_dec ascii_dec x l) as [Hl|Hl].
  - destruct (IH Hl) as (a & b & -> & Hb). now exists (c :: a), b.
  - destruct Hin as [->|Hin]; [|contradiction]. now exists [], l.
Qed.

Lemma re_search_later r pre s m :
  re_match r s = Some m -> exists m', re_search r (pre ++ s) = Some m'.
Proof.
  intros H. induction pre as [|c pre IH]; simpl.
  - exists m. now apply re_search_here.
  - destruct (re_match r (c :: pre ++ s)); [now eexists|exact IH].
Qed.

(** (c) The pattern is not found exactly when the text has no opening
    brace with a closing brace after it. *)
Lemma re_search_none_iff text :
  re_search json_pattern text = None <-> ~ has_brace_span text.
Proof.
  split.
  - intros Hnone (pre & mid & post & ->).
    destruct (split_last_occurrence "}"%char (mid ++ "}"%char :: post))
      as (a & b & E & Hb); [apply in_elt|].
    rewrite E in Hnone.
    destruct (re_search_later json_pattern pre ("{"%char :: a ++ "}"%char :: b)
                [(2, "{"%char :: a ++ ["}"%char])]) as (m' & Hm').
    + unfold re_match, json_pattern. rewrite rmatch_alt_right.
      * now apply rmatch_group_brace.
      * rewrite rmatch_seq. now apply rmatch_lit_head.
    + congruence.
  - intros Hno. destruct (re_search json_pattern text) eqn:E; [|reflexivity].
    exfalso. apply Hno. now apply re_search_sound in E.
Qed.





(* ------------------------------------------------------------------ *)
(** * The store: [load_data] and [save_data] *)

Lemma load_data_absent w :
  file w = None -> load_data w = (Ok (JArr []), w).
Proof. intros H. unfold load_data, bind, path_exists. now rewrite H. Qed.

Lemma load_data_present w t :
  file w = Some t ->
  load_data w = (Ok (match json_decode t with
                     | Some v => v
                     | None => JArr []
                     end), w).
Proof.
  intros H.
  unfold load_data, json_load, bind, path_exists, read_file, try_except, lift,
    json_loads.
  rewrite H. simpl. rewrite H. now destruct (json_decode t).
Qed.


Lemma load_data_keys_unique w v w' :
  load_data w = (Ok v, w') -> keys_unique v = true.
Proof.
  destruct (file w) as [t|] eqn:E.
  - rewrite (load_data_present w t E). intros H; inversion H; subst.
    destruct (json_decode t) eqn:D; [|reflexivity].
    exact (json_decode_keys_unique _ _ D).
  - rewrite (load_data_absent w E). now intros H; inversion H.
Qed.

Lemma load_data_corrupt w t :
  file w = Some t -> json_loads t = Raise JSONDecodeError ->
  load_data w = (Ok (JArr []), w).
Proof.
  intros H Hl. rewrite (load_data_present w t H). unfold json_loads in Hl.
  now destruct (json_decode t).
Qed.

(** What [load_data] finds after a list has been written. *)
Lemma load_data_written l u :
  keys_unique (JArr l) = true ->
  load_data (World (Some (json_encode (JArr l))) u)
  = (Ok (JArr l), World (Some (json_encode (JArr l))) u).
Proof.
  intros H.
  rewrite (load_data_present (World (Some (json_encode (JArr l))) u)
             (json_encode (JArr l)) eq_refl).
  now rewrite (json_decode_encode _ H).
Qed.

Lemma save_data_list w s r :
  load_data w = (Ok (JArr s), w) ->
  save_data r w
  = (Ok tt, World (Some (json_encode (JArr (s ++ [r])))) (ui w)).
Proof. intros H. unfold save_data, bind. now rewrite H. Qed.

Lemma save_data_not_list w v r :
  load_data w = (Ok v, w) ->
  (forall l, v <> JArr l) ->
  save_data r w = (Raise AttributeError, w).
Proof.
  intros H Hv. unfold save_data, bind. rewrite H.
  destruct v; try reflexivity. now destruct (Hv l).
Qed.

(* ------------------------------------------------------------------ *)
(** * The analyzer returns *)

Lemma analyze_feedback_service_fails service rating review w e :
  service (build_prompt rating review) = Fails e ->
  analyze_feedback service rating review w = (Ok fallback, reported w e).
Proof.
  intros H. unfold analyze_feedback, try_except, bind, generate_text.
  now rewrite H.
Qed.

Lemma analyze_feedback_reply service rating review w t :
  service (build_prompt rating review) = Reply t ->
  analyze_feedback service rating review w
  = match parse_response t with
    | Ok v => (Ok v, w)
    | Raise e => (Ok fallback, reported w e)
    end.
Proof.
  intros H. unfold analyze_feedback, try_except, bind, generate_text, lift.
  rewrite H. simpl. now destruct (parse_response t).
Qed.

Lemma parse_response_keys_unique t v :
  parse_response t = Ok v -> keys_unique v = true.
Proof.
  unfold parse_response, json_loads.
  destruct (re_search json_pattern (strip t)) as [m|].
  - destruct (json_string m) as [js|]; [|discriminate].
    destruct (json_decode js) eqn:D; [|discriminate].
    intros H; inversion H; subst. exact (json_decode_keys_unique _ _ D).
  - destruct (json_decode (strip t)) eqn:D; [|discriminate].
    intros H; inversion H; subst. exact (json_decode_keys_unique _ _ D).
Qed.

(** The analyzer returns: the fallback after a failure, the decoded
    payload otherwise.  It never touches the file. *)
Lemma analyze_feedback_returns service rating review w :
  exists v w',
    analyze_feedback service rating review w = (Ok v, w')
    /\ file w' = file w
    /\ keys_unique v = true
    /\ ((v = fallback /\ exists e, w' = reported w e)
        \/ (w' = w /\ exists t,
               service (build_prompt rating review) = Reply t
               /\ parse_response t = Ok v)).
Proof.
  destruct (service (build_prompt rating review)) as [t|e] eqn:E.
  - rewrite (analyze_feedback_reply _ _ _ w _ E).
    destruct (parse_response t) as [v|e] eqn:P.
    + exists v, w. repeat split; [exact (parse_response_keys_unique _ _ P)|].
      right. split; [reflexivity|]. now exists t.
    + exists fallback, (reported w e). repeat split. left. split; [reflexivity|].
      now exists e.
  - rewrite (analyze_feedback_service_fails _ _ _ w _ E).
    exists fallback, (reported w e). repeat split. left. split; [reflexivity|].
    now exists e.
Qed.

(* ------------------------------------------------------------------ *)
(** * The runs of the feedback form *)

Lemma bind_ok {A B : Type} (c : M A) (k : A -> M B) w {a w'} :
  c w = (Ok a, w') -> bind c k w = k a w'.
Proof. intros H. unfold bind. now rewrite H. Qed.

Lemma bind_raise {A B : Type} (c : M A) (k : A -> M B) w {e w'} :
  c w = (Raise e, w') -> bind c k w = (Raise e, w').
Proof. intros H. unfold bind. now rewrite H. Qed.

Lemma bind_ret {A B : Type} (a : A) (k : A -> M B) w :
  bind (ret a) k w = k a w.
Proof. reflexivity. Qed.

Lemma load_data_stored w : load_data w = (Ok (stored (file w)), w).
Proof.
  destruct (file w) as [t|] eqn:E; simpl.
  - exact (load_data_present w t E).
  - exact (load_data_absent w E).
Qed.

Lemma feedback_form_skipped service now submitted rating review w :
  submitted && truthy review = false ->
  feedback_form service now submitted rating review w = (Ok tt, w).
Proof. intros H. unfold feedback_form. now rewrite H. Qed.

Lemma feedback_form_not_dict service now rating review w w1 v :
  truthy review = true ->
  analyze_feedback service rating review w = (Ok v, w1) ->
  (forall d, v <> JObj d) ->
  feedback_form service now true rating review w = (Raise AttributeError, w1).
Proof.
  intros Ht Ha Hv. unfold feedback_form. rewrite Ht. cbn [andb].
  rewrite (bind_ok _ _ _ Ha).
  destruct v; try reflexivity. now destruct (Hv l).
Qed.

Lemma feedback_form_stores service now rating review w w1 payload s :
  truthy review = true ->
  analyze_feedback service rating review w = (Ok (JObj payload), w1) ->
  stored (file w1) = JArr s ->
  feedback_form service now true rating review w
  = (Ok tt,
     World (Some (json_encode
                    (JArr (s ++ [entry_of now rating review payload]))))
           (ui w1 ++ [StSuccess thank_you;
                      StInfo our_response
                             (dict_get k_user_response payload (JStr []))])).
Proof.
  intros Ht Ha Hs. unfold feedback_form. rewrite Ht. cbn [andb].
  rewrite (bind_ok _ _ _ Ha). cbn [py_get].
  rewrite !bind_ret.
  rewrite (bind_ok _ _ _ (save_data_list w1 s _ ltac:(now rewrite load_data_stored, Hs))).
  unfold bind, st_show. simpl. now rewrite <- app_assoc.
Qed.

Lemma feedback_form_store_not_list service now rating review w w1 payload :
  truthy review = true ->
  analyze_feedback service rating review w = (Ok (JObj payload), w1) ->
  (forall l, stored (file w1) <> JArr l) ->
  feedback_form service now true rating review w = (Raise AttributeError, w1).
Proof.
  intros Ht Ha Hs. unfold feedback_form. rewrite Ht. cbn [andb].
  rewrite (bind_ok _ _ _ Ha). cbn [py_get].
  rewrite !bind_ret.
  now rewrite (bind_raise _ _ _
                 (save_data_not_list w1 (stored (file w1)) _
                    (load_data_stored w1) Hs)).
Qed.

(* ------------------------------------------------------------------ *)
(** * The analyzer: fallback and payload *)

(** C1.  Whatever the rating and the review, when the generation call
    raises an exception, or when the text of the response has no JSON
    payload to extract and does not parse as JSON either, or when the
    payload extracted from it does not parse, [analyze_feedback] does not
    raise: it returns the fixed fallback triple (the acknowledgment noting
    a system issue, "System/API Error", "Check system logs and API
    usage."), after reporting the error on the page. *)
Theorem analyze_feedback_falls_back service rating review w :
  (exists e, service (build_prompt rating review) = Fails e)
  \/ (exists t, service (build_prompt rating review) = Reply t
                /\ re_search json_pattern (strip t) = None
                /\ json_loads (strip t) = Raise JSONDecodeError)
  \/ (exists t m js,
         service (build_prompt rating review) = Reply t
         /\ re_search json_pattern (strip t) = Some m
         /\ json_string m = Some js
         /\ json_loads js = Raise JSONDecodeError) ->
  exists e,
    analyze_feedback service rating review w
    = (Ok (JObj [ (str "user_response",
                   JStr (str "Thank you for sharing your experience. We are currently experiencing a system issue and will address your feedback shortly."));
                  (str "summary", JStr (str "System/API Error"));
                  (str "action",
                   JStr (str "Check system logs and API usage.")) ]),
       reported w e).
Proof.
  intros [(e & He)|[(t & Ht & Hs & Hl)|(t & m & js & Ht & Hs & Hj & Hl)]].
  - exists e. exact (analyze_feedback_service_fails _ _ _ w _ He).
  - exists JSONDecodeError. rewrite (analyze_feedback_reply _ _ _ w _ Ht).
    unfold parse_response. now rewrite Hs, Hl.
  - exists JSONDecodeError. rewrite (analyze_feedback_reply _ _ _ w _ Ht).
    unfold parse_response. now rewrite Hs, Hj, Hl.
Qed.

Lemma analyze_feedback_falls_back_witness :
  (exists e,
      analyze_feedback (replies (str "I cannot help with that.")) 3
                       (str "too slow") empty_world
      = (Ok (JObj [ (str "user_response",
                     JStr (str "Thank you for sharing your experience. We are currently experiencing a system issue and will address your feedback shortly."));
                    (str "summary", JStr (str "System/API Error"));
                    (str "action",
                     JStr (str "Check system logs and API usage.")) ]),
         reported empty_world e))
  /\ (exists e,
         analyze_feedback service_down 3 (str "too slow") empty_world
         = (Ok (JObj [ (str "user_response",
                        JStr (str "Thank you for sharing your experience. We are currently experiencing a system issue and will address your feedback shortly."));
                       (str "summary", JStr (str "System/API Error"));
                       (str "action",
                        JStr (str "Check system logs and API usage.")) ]),
            reported empty_world e)).
Proof.
  split.
  - apply (analyze_feedback_falls_back
             (replies (str "I cannot help with that.")) 3 (str "too slow")
             empty_world).
    right. left. exists (str "I cannot help with that.").
    split; [reflexivity|]. split; vm_compute; reflexivity.
  - apply (analyze_feedback_falls_back service_down 3 (str "too slow")
             empty_world).
    left. eexists. reflexivity.
Defined.



(* ------------------------------------------------------------------ *)
(** * A submission that is lost *)

(** C3: the submissions that the form loses.  When the response holds
    well-formed JSON that is not an object, the analyzer returns it as it
    is, the first [ai_results.get] raises [AttributeError], and the form
    ends there: nothing is stored and nothing is shown. *)
Theorem feedback_form_loses_submission service now rating review w t v :
  truthy review = true ->
  service (build_prompt rating review) = Reply t ->
  parse_response t = Ok v ->
  (forall d, v <> JObj d) ->
  analyze_feedback service rating review w = (Ok v, w)
  /\ feedback_form service now true rating review w
     = (Raise AttributeError, w).
Proof.
  intros Ht Hs Hp Hv.
  assert (Ha : analyze_feedback service rating review w = (Ok v, w))
    by (rewrite (analyze_feedback_reply _ _ _ w _ Hs); now rewrite Hp).
  split; [exact Ha|].
  exact (feedback_form_not_dict _ now _ _ _ _ _ Ht Ha Hv).
Qed.

Lemma feedback_form_loses_submission_witness :
  analyze_feedback (replies (str "[]")) 5 (str "great") empty_world
  = (Ok (JArr []), empty_world)
  /\ feedback_form (replies (str "[]")) (str "2025-01-01 10:00:00") true 5
                   (str "great") empty_world
     = (Raise AttributeError, empty_world).
Proof.
  apply (feedback_form_loses_submission (replies (str "[]"))
           (str "2025-01-01 10:00:00") 5 (str "great") empty_world
           (str "[]") (JArr [])).
  - reflexivity.
  - reflexivity.
  - vm_compute; reflexivity.
  - discriminate.
Defined.

(* ------------------------------------------------------------------ *)
(** * What the analyzer parses *)

Lemma parse_response_found t m js :
  re_search json_pattern (strip t) = Some m ->
  json_string m = Some js ->
  parse_response t = json_loads js.
Proof. intros Hm Hj. unfold parse_response. now rewrite Hm, Hj. Qed.




(** C5.  The object [{"user_response":"A","summary":"B","action":"C"}],
    whether inside a [```json] fence or alone in the response, is parsed
    by the analyzer into the triple A, B, C. *)
Theorem analyze_feedback_examples rating review w :
  parse_response fenced_example = Ok triple_ABC
  /\ parse_response bare_example = Ok triple_ABC
  /\ analyze_feedback (replies fenced_example) rating review w
     = (Ok triple_ABC, w)
  /\ analyze_feedback (replies bare_example) rating review w
     = (Ok triple_ABC, w).
Proof.
  assert (Hf : parse_response fenced_example = Ok triple_ABC)
    by (vm_compute; reflexivity).
  assert (Hb : parse_response bare_example = Ok triple_ABC)
    by (vm_compute; reflexivity).
  split; [exact Hf|]. split; [exact Hb|]. split.
  - rewrite (analyze_feedback_reply (replies fenced_example) rating review w
               fenced_example eq_refl).
    now rewrite Hf.
  - rewrite (analyze_feedback_reply (replies bare_example) rating review w
               bare_example eq_refl).
    now rewrite Hb.
Qed.

(* ------------------------------------------------------------------ *)
(** * Records and the store *)

Lemma dict_lookup_keys_unique k d x :
  forallb (fun kv => keys_unique (snd kv)) d = true ->
  dict_lookup k d = Some x -> keys_unique x = true.
Proof.
  induction d as [|[k' v] d IH]; simpl; [discriminate|].
  rewrite andb_true_iff. intros [Hv Hd].
  destruct (pystr_eqb k k'); [intros H; inversion H; now subst|now apply IH].
Qed.

Lemma dict_get_keys_unique k d default :
  keys_unique (JObj d) = true -> keys_unique default = true ->
  keys_unique (dict_get k d default) = true.
Proof.
  simpl. rewrite andb_true_iff. intros [_ Hd] Hdef. unfold dict_get.
  destruct (dict_lookup k d) eqn:E; [|exact Hdef].
  exact (dict_lookup_keys_unique _ _ _ Hd E).
Qed.

Lemma entry_of_keys_unique now rating review payload :
  keys_unique (JObj payload) = true ->
  keys_unique (entry_of now rating review payload) = true.
Proof.
  intros H. unfold entry_of, make_entry. cbn [keys_unique map fst snd forallb].
  rewrite !(dict_get_keys_unique _ _ (JStr []) H eq_refl). reflexivity.
Qed.

(** C6.  When the payload the analyzer returns is an object that lacks
    one of [user_response], [summary] and [action], the submission goes
    through: the record is stored with its six fields, and the field of
    a missing key holds the empty string. *)
Theorem missing_field_is_empty service now rating review w w1 payload s :
  truthy review = true ->
  analyze_feedback service rating review w = (Ok (JObj payload), w1) ->
  load_data w1 = (Ok (JArr s), w1) ->
  exists r su a,
    feedback_form service now true rating review w
    = (Ok tt,
       World (Some (json_encode
                      (JArr (s ++ [JObj [ (str "timestamp", JStr now);
                                          (str "rating", JInt rating);
                                          (str "review", JStr review);
                                          (str "ai_response", r);
                                          (str "ai_summary", su);
                                          (str "ai_action", a) ]]))))
             (ui w1 ++ [StSuccess thank_you; StInfo our_response r]))
    /\ match dict_lookup (str "user_response") payload with
       | Some x => r = x
       | None => r = JStr []
       end
    /\ match dict_lookup (str "summary") payload with
       | Some x => su = x
       | None => su = JStr []
       end
    /\ match dict_lookup (str "action") payload with
       | Some x => a = x
       | None => a = JStr []
       end.
Proof.
  intros Ht Ha Hl. rewrite load_data_stored in Hl.
  assert (Hs : stored (file w1) = JArr s) by now inversion Hl.
  exists (dict_get k_user_response payload (JStr [])),
         (dict_get k_summary payload (JStr [])),
         (dict_get k_action payload (JStr [])).
  split; [exact (feedback_form_stores _ now _ _ _ _ _ _ Ht Ha Hs)|].
  unfold dict_get, k_user_response, k_summary, k_action.
  repeat split.
  - now destruct (dict_lookup (str "user_response") payload).
  - now destruct (dict_lookup (str "summary") payload).
  - now destruct (dict_lookup (str "action") payload).
Qed.

Lemma missing_field_is_empty_witness :
  exists r su a,
    feedback_form (replies two_field_reply) (str "2025-01-01 10:00:00") true 4
                  (str "good") empty_world
    = (Ok tt,
       World (Some (json_encode
                      (JArr ([] ++ [JObj [ (str "timestamp",
                                            JStr (str "2025-01-01 10:00:00"));
                                           (str "rating", JInt 4);
                                           (str "review", JStr (str "good"));
                                           (str "ai_response", r);
                                           (str "ai_summary", su);
                                           (str "ai_action", a) ]]))))
             (ui empty_world ++ [StSuccess thank_you; StInfo our_response r]))
    /\ match dict_lookup (str "user_response")
               [ (str "user_response", JStr (str "Thanks!"));
                 (str "action", JStr (str "Call the customer back.")) ] with
       | Some x => r = x
       | None => r = JStr []
       end
    /\ match dict_lookup (str "summary")
               [ (str "user_response", JStr (str "Thanks!"));
                 (str "action", JStr (str "Call the customer back.")) ] with
       | Some x => su = x
       | None => su = JStr []
       end
    /\ match dict_lookup (str "action")
               [ (str "user_response", JStr (str "Thanks!"));
                 (str "action", JStr (str "Call the customer back.")) ] with
       | Some x => a = x
       | None => a = JStr []
       end.
Proof.
  apply (missing_field_is_empty (replies two_field_reply)
           (str "2025-01-01 10:00:00") 4 (str "good") empty_world empty_world
           [ (str "user_response", JStr (str "Thanks!"));
             (str "action", JStr (str "Call the customer back.")) ] []);
    vm_compute; reflexivity.
Defined.






(** C10.  When [data.json] holds a text that [json.load] rejects,
    [save_data r] returns normally, shows nothing, and leaves in the file
    the list whose only element is [r]: whatever the file held is gone. *)
Theorem save_data_over_corrupt_store w t r :
  file w = Some t ->
  json_loads t = Raise JSONDecodeError ->
  save_data r w = (Ok tt, World (Some (json_encode (JArr [r]))) (ui w))
  /\ (keys_unique r = true ->
      load_data (World (Some (json_encode (JArr [r]))) (ui w))
      = (Ok (JArr [r]), World (Some (json_encode (JArr [r]))) (ui w))).
Proof.
  intros Hf Hl. split.
  - apply (save_data_list w [] r). exact (load_data_corrupt w t Hf Hl).
  - intros Hk. apply load_data_written. simpl. now rewrite Hk.
Qed.

Lemma save_data_over_corrupt_store_witness :
  save_data example_record truncated_store
  = (Ok tt, World (Some (json_encode (JArr [example_record])))
                  (ui truncated_store))
  /\ (keys_unique example_record = true ->
      load_data (World (Some (json_encode (JArr [example_record])))
                       (ui truncated_store))
      = (Ok (JArr [example_record]),
         World (Some (json_encode (JArr [example_record])))
               (ui truncated_store))).
Proof.
  apply (save_data_over_corrupt_store truncated_store
           (jtext "[{'timestamp': 't0', 'rating': 1, 'review': 'cold'}")
           example_record); vm_compute; reflexivity.
Defined.

(* ------------------------------------------------------------------ *)
(** * The six fields of every stored record *)

Lemma entry_of_six_fields now rating review payload :
  has_six_fields (entry_of now rating review payload).
Proof. unfold has_six_fields, entry_of, make_entry. now eexists _, _, _, _, _, _. Qed.

Lemma store_inv_stored f :
  store_inv f ->
  exists l, stored f = JArr l /\ keys_unique (JArr l) = true
            /\ Forall has_six_fields l.
Proof.
  intros [->|(l & -> & Hk & Hl)].
  - exists []. repeat split. constructor.
  - exists l. simpl. now rewrite (json_decode_encode _ Hk).
Qed.

Lemma analysis_fails_fallback service rating review w :
  analysis_fails service rating review ->
  exists e, analyze_feedback service rating review w
            = (Ok fallback, reported w e).
Proof.
  unfold analysis_fails.
  destruct (service (build_prompt rating review)) as [t|e] eqn:E.
  - intros (e & He). exists e.
    rewrite (analyze_feedback_reply _ _ _ w _ E). now rewrite He.
  - intros _. exists e. exact (analyze_feedback_service_fails _ _ _ w _ E).
Qed.

(** One run of the form: the file is left alone, or a six-field record
    is added to the list it held. *)
Lemma feedback_form_step service now submitted rating review w res w' :
  feedback_form service now submitted rating review w = (res, w') ->
  file w' = file w
  \/ exists s payload,
      keys_unique (JObj payload) = true
      /\ stored (file w) = JArr s
      /\ file w' = Some (json_encode
                           (JArr (s ++ [entry_of now rating review payload]))).
Proof.
  destruct (submitted && truthy review) eqn:E.
  - apply andb_true_iff in E as [-> Ht].
    destruct (analyze_feedback_returns service rating review w)
      as (v & w1 & Ha & Hf & Hk & _).
    assert (Hnd : (forall d, v <> JObj d) ->
                  feedback_form service now true rating review w = (res, w') ->
                  file w' = file w).
    { intros Hv H.
      rewrite (feedback_form_not_dict _ now _ _ _ _ _ Ht Ha Hv) in H.
      inversion H; subst. exact Hf. }
    destruct v as [|b|z|x|s0|l|payload];
      try (intros H; left; apply Hnd; [discriminate|exact H]).
    destruct (stored (file w1)) as [|b|z|x|s0|s|d] eqn:Es;
      try (rewrite (feedback_form_store_not_list _ now _ _ _ _ _ Ht Ha)
            by (rewrite Es; discriminate);
           intros H; inversion H; subst; left; exact Hf).
    rewrite (feedback_form_stores _ now _ _ _ _ _ _ Ht Ha Es).
    intros H; inversion H; subst. right. exists s, payload.
    rewrite <- Hf. now repeat split.
  - rewrite (feedback_form_skipped _ _ _ _ _ _ E).
    intros H; inversion H; subst. now left.
Qed.

Lemma feedback_form_keeps_inv service now submitted rating review w res w' :
  store_inv (file w) ->
  feedback_form service now submitted rating review w = (res, w') ->
  store_inv (file w').
Proof.
  intros Hinv H.
  destruct (feedback_form_step _ _ _ _ _ _ _ _ H)
    as [->|(s & payload & Hk & Hs & ->)]; [exact Hinv|].
  destruct (store_inv_stored _ Hinv) as (l & Hl & Hkl & Hsix).
  rewrite Hl in Hs. inversion Hs; subst. right.
  exists (s ++ [entry_of now rating review payload]). split; [reflexivity|].
  split.
  - cbn [keys_unique] in Hkl |- *. rewrite forallb_app, Hkl. cbn [forallb].
    now rewrite (entry_of_keys_unique now rating review payload Hk).
  - apply Forall_app. split; [exact Hsix|].
    constructor; [apply entry_of_six_fields|constructor].
Qed.

Lemma reachable_inv w : reachable w -> store_inv (file w).
Proof.
  induction 1 as [u|w service now submitted rating review res w' _ IH H].
  - now left.
  - exact (feedback_form_keeps_inv _ _ _ _ _ _ _ _ IH H).
Qed.

(** C9.  Every record the form writes has the six fields [timestamp],
    [rating], [review], [ai_response], [ai_summary] and [ai_action]; when
    the analysis fails the three AI fields hold the fallback strings; and
    in every world the script can reach, the store holds a list of
    six-field records. *)
Theorem six_fields_invariant :
  (forall service now submitted rating review w res w',
      feedback_form service now submitted rating review w = (res, w') ->
      file w' = file w
      \/ exists s r,
          load_data w = (Ok (JArr s), w)
          /\ has_six_fields r
          /\ file w' = Some (json_encode (JArr (s ++ [r]))))
  /\ (forall service now rating review w s,
         truthy review = true ->
         load_data w = (Ok (JArr s), w) ->
         analysis_fails service rating review ->
         exists w',
           feedback_form service now true rating review w = (Ok tt, w')
           /\ file w'
              = Some (json_encode
                        (JArr (s ++ [JObj [ (str "timestamp", JStr now);
                                            (str "rating", JInt rating);
                                            (str "review", JStr review);
                                            (str "ai_response",
                                             JStr fallback_user_response);
                                            (str "ai_summary",
                                             JStr (str "System/API Error"));
                                            (str "ai_action",
                                             JStr (str "Check system logs and API usage."))
                                          ]]))))
  /\ (forall w,
         reachable w ->
         exists l, load_data w = (Ok (JArr l), w) /\ Forall has_six_fields l).
Proof.
  split; [|split].
  - intros service now submitted rating review w res w' H.
    destruct (feedback_form_step _ _ _ _ _ _ _ _ H)
      as [E|(s & payload & _ & Hs & E)]; [now left|right].
    exists s, (entry_of now rating review payload).
    split; [now rewrite load_data_stored, Hs|].
    split; [apply entry_of_six_fields|exact E].
  - intros service now rating review w s Ht Hl Hfail.
    destruct (analysis_fails_fallback _ _ _ w Hfail) as (e & Ha).
    rewrite load_data_stored in Hl.
    assert (Hs : stored (file (reported w e)) = JArr s) by now inversion Hl.
    eexists. split.
    + exact (feedback_form_stores _ now _ _ _ _ _ _ Ht Ha Hs).
    + reflexivity.
  - intros w Hr.
    destruct (store_inv_stored _ (reachable_inv w Hr)) as (l & Hl & _ & Hsix).
    exists l. split; [now rewrite load_data_stored, Hl|exact Hsix].
Qed.

Lemma six_fields_invariant_witness :
  (exists w',
      feedback_form service_down (str "2025-01-01 10:00:00") true 2
                    (str "cold food") empty_world = (Ok tt, w')
      /\ file w'
         = Some (json_encode
                   (JArr ([] ++ [JObj [ (str "timestamp",
                                         JStr (str "2025-01-01 10:00:00"));
                                        (str "rating", JInt 2);
                                        (str "review", JStr (str "cold food"));
                                        (str "ai_response",
                                         JStr fallback_user_response);
                                        (str "ai_summary",
                                         JStr (str "System/API Error"));
                                        (str "ai_action",
                                         JStr (str "Check system logs and API usage."))
                                      ]]))))
  /\ (exists l, load_data world_after_outage = (Ok (JArr l), world_after_outage)
                /\ Forall has_six_fields l).
Proof.
  split.
  - apply (proj1 (proj2 six_fields_invariant) service_down
             (str "2025-01-01 10:00:00") 2%Z (str "cold food") empty_world []).
    + reflexivity.
    + vm_compute; reflexivity.
    + exact I.
  - apply (proj2 (proj2 six_fields_invariant) world_after_outage).
    apply (reach_submit empty_world service_down (str "2025-01-01 10:00:00")
             true 2 (str "cold food") (Ok tt) world_after_outage
             (reach_start [])).
    vm_compute; reflexivity.
Defined.


(* ================================================================== *)
(** * Further properties of the analyzer, the store and the dashboard *)

(* ------------------------------------------------------------------ *)
(** * [str.strip] *)

Lemma lstrip_spaces w s :
  forallb is_space w = true -> lstrip (w ++ s) = lstrip s.
Proof.
  induction w as [|c w IH]; simpl; [reflexivity|].
  rewrite andb_true_iff. intros [Hc Hw]. now rewrite Hc, IH.
Qed.

Lemma lstrip_all_spaces w : forallb is_space w = true -> lstrip w = [].
Proof.
  intros H. rewrite <- (app_nil_r w). now rewrite lstrip_spaces.
Qed.

Lemma lstrip_head s : not_space_head s -> lstrip s = s.
Proof. destruct s as [|c s]; simpl; [reflexivity|]. now intros ->. Qed.

Lemma lstrip_not_space_head s : not_space_head (lstrip s).
Proof.
  induction s as [|c s IH]; simpl; [exact I|].
  destruct (is_space c) eqn:E; [exact IH|exact E].
Qed.

(** What [lstrip] removes is white space. *)
Lemma lstrip_split s :
  exists w, s = w ++ lstrip s /\ forallb is_space w = true.
Proof.
  induction s as [|c s (w & Hs & Hw)]; simpl.
  - now exists [].
  - destruct (is_space c) eqn:E.
    + exists (c :: w). simpl. rewrite E, Hw. split; [now f_equal|reflexivity].
    + now exists [].
Qed.

Lemma lstrip_app s w :
  lstrip s <> [] -> lstrip (s ++ w) = lstrip s ++ w.
Proof.
  induction s as [|c s IH]; simpl; [congruence|].
  destruct (is_space c); [exact IH|reflexivity].
Qed.

Lemma forallb_rev {A : Type} (p : A -> bool) l :
  forallb p (rev l) = forallb p l.
Proof.
  induction l as [|a l IH]; simpl; [reflexivity|].
  rewrite forallb_app, IH. simpl. rewrite andb_true_r. apply andb_comm.
Qed.

(** White space around a text does not change what [strip] returns. *)
Lemma strip_spaces w1 t w2 :
  forallb is_space w1 = true -> forallb is_space w2 = true ->
  strip (w1 ++ t ++ w2) = strip t.
Proof.
  intros H1 H2. unfold strip. rewrite lstrip_spaces by exact H1.
  destruct (lstrip t) as [|c t'] eqn:E.
  - destruct (lstrip_split t) as (w & Ht & Hw). rewrite E, app_nil_r in Ht.
    subst w. rewrite (lstrip_all_spaces (t ++ w2)); [reflexivity|].
    now rewrite forallb_app, Hw, H2.
  - rewrite lstrip_app by congruence. rewrite E, rev_app_distr.
    rewrite lstrip_spaces; [reflexivity|]. now rewrite forallb_rev.
Qed.

(** A text that neither starts nor ends with white space is what [strip]
    leaves of it, whatever white space surrounds it. *)
Lemma strip_trim w1 x w2 :
  forallb is_space w1 = true -> forallb is_space w2 = true ->
  not_space_head x -> not_space_head (rev x) ->
  strip (w1 ++ x ++ w2) = x.
Proof.
  intros H1 H2 Hx Hr. rewrite strip_spaces by assumption.
  unfold strip. rewrite (lstrip_head x Hx), (lstrip_head (rev x) Hr).
  apply rev_involutive.
Qed.

(** X3.  White space (in the sense of [str.isspace]) in front of and
    behind the text of the response changes nothing of what the analyzer
    makes of it. *)
Theorem parse_response_ignores_surrounding_space w1 t w2 :
  forallb is_space w1 = true -> forallb is_space w2 = true ->
  parse_response (w1 ++ t ++ w2) = parse_response t.
Proof.
  intros H1 H2. unfold parse_response. now rewrite strip_spaces.
Qed.

Lemma parse_response_ignores_surrounding_space_witness :
  parse_response (str "
  " ++ bare_example ++ str "  	
") = parse_response bare_example.
Proof.
  apply parse_response_ignores_surrounding_space; reflexivity.
Defined.

(* ------------------------------------------------------------------ *)
(** * What a scan has read does not depend on what follows *)

Lemma skip_ws_split s :
  exists w, s = w ++ skip_ws s /\ forallb is_json_ws w = true.
Proof.
  induction s as [|c s (w & Hs & Hw)]; simpl.
  - now exists [].
  - destruct (is_json_ws c) eqn:E.
    + exists (c :: w). simpl. rewrite E, Hw. split; [now f_equal|reflexivity].
    + now exists [].
Qed.

Lemma skip_ws_no_ws_head s : no_ws_head (skip_ws s).
Proof.
  induction s as [|c s IH]; simpl; [exact I|].
  destruct (is_json_ws c) eqn:E; [exact IH|exact E].
Qed.

Lemma skip_ws_ws w x :
  forallb is_json_ws w = true -> no_ws_head x -> skip_ws (w ++ x) = x.
Proof.
  intros Hw Hx. induction w as [|c w IH]; simpl.
  - destruct x as [|c x]; simpl; [reflexivity|]. simpl in Hx. now rewrite Hx.
  - simpl in Hw. apply andb_true_iff in Hw as [Hc Hw]. now rewrite Hc, IH.
Qed.

Lemma no_ws_head_app p r r' :
  p <> [] -> no_ws_head (p ++ r) -> no_ws_head (p ++ r').
Proof. destruct p; [congruence|trivial]. Qed.

Lemma scanstring_local s k r :
  scanstring s = Scanned k r ->
  exists p, s = p ++ r /\ forall r', scanstring (p ++ r') = Scanned k r'.
Proof.
  remember (length s) as n eqn:En.
  assert (Hn : length s <= n) by lia. clear En.
  revert s k r Hn. induction n as [|n IH]; intros s k r Hn.
  - destruct s; [discriminate|simpl in Hn; lia].
  - destruct s as [|c s1]; [discriminate|]. cbn [scanstring]. simpl in Hn.
    destruct (c =? dquote)%char eqn:Eq.
    { intros H; inversion H; subst. exists [c]. split; [reflexivity|].
      intros r'. cbn [app scanstring]. now rewrite Eq. }
    destruct (c =? "\")%char eqn:Eb.
    + destruct s1 as [|e s2]; [discriminate|]. simpl in Hn.
      destruct (e =? "u")%char eqn:Eu.
      * destruct s2 as [|h1 [|h2 [|h3 [|h4 s3]]]]; try discriminate.
        destruct (hex4 h1 h2 h3 h4) as [ch|] eqn:Eh; [|discriminate].
        destruct (scanstring s3) as [k' r0| |] eqn:E; try discriminate.
        intros H; inversion H; subst.
        destruct (IH s3 k' r ltac:(simpl in *; lia) E) as (p & -> & Hp).
        exists (c :: e :: h1 :: h2 :: h3 :: h4 :: p).
        split; [reflexivity|]. intros r'. cbn [app scanstring].
        now rewrite Eq, Eb, Eu, Eh, Hp.
      * destruct (unescape e) as [ch|] eqn:Ee; [|discriminate].
        destruct (scanstring s2) as [k' r0| |] eqn:E; try discriminate.
        intros H; inversion H; subst.
        destruct (IH s2 k' r ltac:(lia) E) as (p & -> & Hp).
        exists (c :: e :: p). split; [reflexivity|].
        intros r'. cbn [app scanstring]. now rewrite Eq, Eb, Eu, Ee, Hp.
    + destruct (N_of_ascii c <? 32)%N eqn:Ec; [discriminate|].
      destruct (scanstring s1) as [k' r0| |] eqn:E; try discriminate.
      intros H; inversion H; subst.
      destruct (IH s1 k' r ltac:(lia) E) as (p & -> & Hp).
      exists (c :: p). split; [reflexivity|].
      intros r'. cbn [app scanstring]. now rewrite Eq, Eb, Ec, Hp.
Qed.

Lemma char_digit_inv c d : char_digit c = Some d -> c = digit_char d.
Proof.
  destruct c as [[|] [|] [|] [|] [|] [|] [|] [|]]; vm_compute;
    intros H; inversion H; reflexivity.
Qed.

Lemma span_digits_inv s ds r :
  span_digits s = (ds, r) -> s = digits_text ds ++ r /\ no_digit_head r.
Proof.
  revert ds r. induction s as [|c s IH]; simpl; intros ds r H.
  - inversion H; subst. now split.
  - destruct (char_digit c) as [d|] eqn:E.
    + destruct (span_digits s) as [ds' r'] eqn:Es. inversion H; subst.
      destruct (IH _ _ eq_refl) as [-> Hr]. split; [|exact Hr].
      simpl. now rewrite (char_digit_inv _ _ E).
    + inversion H; subst. split; [reflexivity|exact E].
Qed.

Lemma stop_head_no_digit s : stop_head s -> no_digit_head s.
Proof.
  destruct s as [|c s]; simpl; [trivial|].
  destruct c as [[|] [|] [|] [|] [|] [|] [|] [|]]; vm_compute;
    intros H; try discriminate H; reflexivity.
Qed.

Lemma stop_head_frac_end s : stop_head s -> frac_end s.
Proof.
  destruct s as [|c s]; simpl; [trivial|].
  destruct c as [[|] [|] [|] [|] [|] [|] [|] [|]]; vm_compute;
    intros H; try discriminate H; split; reflexivity.
Qed.

Lemma scan_exp_stop s : stop_head s -> scan_exp s = (None, s).
Proof.
  destruct s as [|c s]; simpl; [reflexivity|].
  destruct c as [[|] [|] [|] [|] [|] [|] [|] [|]]; vm_compute;
    intros H; try discriminate H; reflexivity.
Qed.

Lemma scan_frac_frac_end s : frac_end s -> scan_frac s = (None, s).
Proof.
  destruct s as [|c [|c' s]]; simpl; try reflexivity.
  intros [_ ->]. reflexivity.
Qed.

Lemma scan_int_part_local s ip s1 :
  scan_int_part s = Some (ip, s1) ->
  exists d tl,
    s = (digit_char d :: tl) ++ s1
    /\ forall s1', no_digit_head s1' ->
                   scan_int_part ((digit_char d :: tl) ++ s1') = Some (ip, s1').
Proof.
  destruct s as [|c s]; [discriminate|]. cbn [scan_int_part].
  destruct (char_digit c) as [d|] eqn:E; [|discriminate].
  apply char_digit_inv in E. subst c.
  assert (Hnz : (let (ds, r') := span_digits s in
                 Some (digits_value (d :: ds), r')) = Some (ip, s1) ->
                exists tl,
                  digit_char d :: s = (digit_char d :: tl) ++ s1
                  /\ forall s1', no_digit_head s1' ->
                       (let (ds0, r') := span_digits (tl ++ s1') in
                        Some (digits_value (d :: ds0), r')) = Some (ip, s1')).
  { destruct (span_digits s) as [ds r] eqn:Es.
    destruct (span_digits_inv _ _ _ Es) as [-> Hr].
    intros H; inversion H; subst. exists (digits_text ds).
    split; [reflexivity|]. intros s1' Hs1'.
    now rewrite (span_digits_text ds s1' Hs1'). }
  destruct d;
    try (intros H; destruct (Hnz H) as (tl & Hs & Hre);
         eexists _, tl; split; [exact Hs|];
         intros s1' Hs1'; cbn [app scan_int_part]; rewrite char_digit_char;
         exact (Hre s1' Hs1')).
  intros H; inversion H; subst. exists d0, []. split; [reflexivity|].
  intros s1' _. cbn [app scan_int_part]. now rewrite char_digit_char.
Qed.

Lemma frac_end_no_digit s : frac_end s -> no_digit_head s.
Proof. destruct s; simpl; [trivial|]. now intros [H _]. Qed.

Lemma scan_frac_local s fr s2 :
  scan_frac s = (fr, s2) ->
  exists p,
    s = p ++ s2
    /\ (p = [] \/ exists tl, p = "."%char :: tl)
    /\ forall s2', frac_end s2' -> scan_frac (p ++ s2') = (fr, s2').
Proof.
  assert (Hnone : (None, s) = (fr, s2) ->
                  exists p, s = p ++ s2
                            /\ (p = [] \/ exists tl, p = "."%char :: tl)
                            /\ forall s2', frac_end s2' ->
                                           scan_frac (p ++ s2') = (fr, s2')).
  { intros H; inversion H; subst. exists []. split; [reflexivity|].
    split; [now left|]. intros s2' Hs2'. now apply scan_frac_frac_end. }
  destruct s as [|p0 [|c s]]; cbn [scan_frac]; try exact Hnone.
  destruct (p0 =? ".")%char eqn:Ep; [|exact Hnone].
  apply Ascii.eqb_eq in Ep. subst p0.
  destruct (char_digit c) as [d|] eqn:E; [|exact Hnone].
  apply char_digit_inv in E. subst c.
  destruct (span_digits s) as [ds r] eqn:Es.
  destruct (span_digits_inv _ _ _ Es) as [-> Hr].
  intros H; inversion H; subst.
  exists ("."%char :: digit_char d :: digits_text ds).
  split; [reflexivity|]. split; [right; now eexists|].
  intros s2' Hd%frac_end_no_digit.
  cbn [app scan_frac]. change (("." =? ".")%char) with true. cbv iota.
  rewrite char_digit_char. now rewrite (span_digits_text ds s2' Hd).
Qed.

Lemma scan_exp_local s ex s3 :
  scan_exp s = (ex, s3) ->
  exists p,
    s = p ++ s3
    /\ (p = [] \/ exists e tl, p = e :: tl
                               /\ ((e =? "e") || (e =? "E"))%char = true)
    /\ forall s3', stop_head s3' -> scan_exp (p ++ s3') = (ex, s3').
Proof.
  assert (Hnone : (None, s) = (ex, s3) ->
                  exists p,
                    s = p ++ s3
                    /\ (p = [] \/ exists e tl,
                           p = e :: tl
                           /\ ((e =? "e") || (e =? "E"))%char = true)
                    /\ forall s3', stop_head s3' ->
                                   scan_exp (p ++ s3') = (ex, s3')).
  { intros H; inversion H; subst. exists []. split; [reflexivity|].
    split; [now left|]. intros s3' Hs3'. now apply scan_exp_stop. }
  destruct s as [|e s]; cbn [scan_exp]; [exact Hnone|].
  destruct ((e =? "e") || (e =? "E"))%char eqn:Ee; [|exact Hnone].
  destruct (scan_exp_sign s) as [sg r1] eqn:Esg.
  destruct r1 as [|c r2]; [exact Hnone|].
  destruct (char_digit c) as [d|] eqn:Ec; [|exact Hnone].
  apply char_digit_inv in Ec. subst c.
  destruct (span_digits r2) as [ds r3] eqn:Es.
  destruct (span_digits_inv _ _ _ Es) as [-> Hr].
  intros H; inversion H; subst.
  assert (Hsign : exists sign,
             s = sign ++ digit_char d :: digits_text ds ++ s3
             /\ forall x, scan_exp_sign (sign ++ digit_char d :: x)
                          = (sg, digit_char d :: x)).
  { unfold scan_exp_sign in Esg. destruct s as [|c s']; [discriminate|].
    destruct (c =? "+")%char eqn:Ep.
    - inversion Esg; subst. exists [c]. split; [reflexivity|].
      intros x. cbn [app scan_exp_sign]. now rewrite Ep.
    - destruct (c =? "-")%char eqn:Em.
      + inversion Esg; subst. exists [c]. split; [reflexivity|].
        intros x. cbn [app scan_exp_sign]. now rewrite Ep, Em.
      + inversion Esg; subst. exists []. split; [reflexivity|].
        intros x. cbn [app scan_exp_sign]. now rewrite Ep, Em. }
  destruct Hsign as (sign & -> & Hsg).
  exists (e :: sign ++ digit_char d :: digits_text ds).
  split; [simpl; now rewrite <- app_assoc|].
  split; [right; now eexists _, _|].
  intros s3' Hs3'. cbn [app scan_exp]. rewrite Ee, <- app_assoc.
  cbn [app]. rewrite Hsg, char_digit_char.
  now rewrite (span_digits_text ds s3' (stop_head_no_digit _ Hs3')).
Qed.

Lemma frac_end_exp p r :
  (p = [] \/ exists e tl, p = e :: tl
                          /\ ((e =? "e") || (e =? "E"))%char = true) ->
  stop_head r -> frac_end (p ++ r).
Proof.
  intros [->|(e & tl & -> & He)] Hr.
  - now apply stop_head_frac_end.
  - simpl. apply orb_true_iff in He as [He|He];
      apply Ascii.eqb_eq in He; subst e; now split.
Qed.

Lemma no_digit_head_tail pf pe r :
  (pf = [] \/ exists tl, pf = "."%char :: tl) ->
  (pe = [] \/ exists e tl, pe = e :: tl
                           /\ ((e =? "e") || (e =? "E"))%char = true) ->
  stop_head r -> no_digit_head (pf ++ pe ++ r).
Proof.
  intros [->|(tl & ->)] Hpe Hr.
  - apply frac_end_no_digit. exact (frac_end_exp pe r Hpe Hr).
  - reflexivity.
Qed.

(** A numeral read in front of one text is read the same in front of any
    text that starts with a character ending a value. *)
Lemma scan_number_local s v r :
  scan_number s = Scanned v r ->
  exists p,
    s = p ++ r
    /\ numeral_start p
    /\ forall r', stop_head r' -> scan_number (p ++ r') = Scanned v r'.
Proof.
  unfold scan_number.
  destruct (match s with
            | [] => (false, s)
            | c :: r0 => if (c =? "-")%char then (true, r0) else (false, s)
            end) as [neg s0] eqn:E0.
  destruct (scan_int_part s0) as [[ip s1]|] eqn:E1; [|discriminate].
  destruct (scan_frac s1) as [fr s2] eqn:E2.
  destruct (scan_exp s2) as [ex s3] eqn:E3.
  destruct (scan_int_part_local _ _ _ E1) as (d & tl & -> & Hi).
  destruct (scan_frac_local _ _ _ E2) as (pf & -> & Hpf & Hf).
  destruct (scan_exp_local _ _ _ E3) as (pe & -> & Hpe & He).
  intros Hv.
  assert (Hr : s3 = r) by (destruct fr, ex; now inversion Hv). subst s3.
  assert (Hre : forall r', stop_head r' ->
                  match scan_int_part ((digit_char d :: tl) ++ pf ++ pe ++ r') with
                  | Some (ip0, s1') =>
                      let (fr0, s2') := scan_frac s1' in
                      let (ex0, s3') := scan_exp s2' in
                      match fr0, ex0 with
                      | None, None => Scanned (JInt (signed neg ip0)) s3'
                      | Some f, _ =>
                          Scanned (JFloat (FNum neg ip0 (TFrac f ex0))) s3'
                      | None, Some e =>
                          Scanned (JFloat (FNum neg ip0 (TExp e))) s3'
                      end
                  | None => Malformed
                  end = Scanned v r').
  { intros r' Hr'.
    rewrite (Hi _ (no_digit_head_tail pf pe r' Hpf Hpe Hr')).
    rewrite (Hf _ (frac_end_exp pe r' Hpe Hr')). cbv iota beta.
    rewrite (He _ Hr'). destruct fr, ex; inversion Hv; reflexivity. }
  destruct s as [|c s']; [inversion E0; subst; discriminate|].
  destruct (c =? "-")%char eqn:Ec.
  - inversion E0; subst. apply Ascii.eqb_eq in Ec. subst c.
    exists ("-"%char :: (digit_char d :: tl) ++ pf ++ pe).
    split; [simpl; now rewrite <- !app_assoc|].
    split; [right; now eexists _, _|].
    intros r' Hr'. cbn [app]. change (("-" =? "-")%char) with true. cbv iota.
    rewrite <- !app_assoc. exact (Hre r' Hr').
  - inversion E0; subst.
    exists ((digit_char d :: tl) ++ pf ++ pe).
    split; [now rewrite <- !app_assoc|].
    split; [left; now eexists _, _|].
    intros r' Hr'. cbn [app]. rewrite digit_char_not_minus.
    rewrite <- !app_assoc. exact (Hre r' Hr').
Qed.

Lemma scan_number_not_object s d r : scan_number s <> Scanned (JObj d) r.
Proof.
  unfold scan_number.
  destruct (match s with
            | [] => (false, s)
            | c :: r0 => if (c =? "-")%char then (true, r0) else (false, s)
            end) as [neg s0].
  destruct (scan_int_part s0) as [[ip s1]|]; [|discriminate].
  destruct (scan_frac s1) as [fr s2]. destruct (scan_exp s2) as [ex s3].
  destruct fr, ex; discriminate.
Qed.

Lemma stop_head_ws_then w c x :
  forallb is_json_ws w = true -> stop_char c = true -> stop_head (w ++ c :: x).
Proof.
  destruct w as [|a w]; simpl; [trivial|].
  rewrite andb_true_iff. intros [Ha _] _. unfold stop_char. now rewrite Ha.
Qed.

Lemma no_ws_head_swap p c r r' :
  no_ws_head (p ++ c :: r) -> no_ws_head (p ++ c :: r').
Proof. destruct p; trivial. Qed.

Lemma scan_once_numeral f p r :
  numeral_start p -> scan_once (S f) (p ++ r) = scan_number (p ++ r).
Proof.
  intros [(d & tl & ->)|(d & tl & ->)].
  - apply scan_once_digit.
  - apply scan_once_minus_digit.
Qed.

Lemma numeral_start_nonempty p : numeral_start p -> p <> [].
Proof. intros [(d & tl & ->)|(d & tl & ->)]; discriminate. Qed.

(** The scanner has read a prefix of the text, and reads the same value
    from that prefix in front of any other continuation that starts with
    a character ending a value.  An object is read from a text that starts
    with an opening and ends with a closing brace. *)
Lemma scan_local f :
  (forall s v r,
      scan_once f s = Scanned v r ->
      exists p,
        s = p ++ r /\ p <> []
        /\ (forall d, v = JObj d ->
                      exists body, p = "{"%char :: body ++ ["}"%char])
        /\ forall r', stop_head r' -> scan_once f (p ++ r') = Scanned v r')
  /\ (forall acc s v r,
         scan_pairs f acc s = Scanned v r ->
         exists p,
           s = p ++ "}"%char :: r
           /\ forall r', scan_pairs f acc (p ++ "}"%char :: r') = Scanned v r')
  /\ (forall acc s v r,
         scan_items f acc s = Scanned v r ->
         (exists l, v = JArr l)
         /\ exists p,
             s = p ++ "]"%char :: r
             /\ forall r',
                 scan_items f acc (p ++ "]"%char :: r') = Scanned v r').
Proof.
  induction f as [|f (IHo & IHp & IHi)];
    [repeat split; intros; discriminate|].
  split; [|split].
  - intros s v r H. cbn [scan_once] in H.
    destruct s as [|c s']; [discriminate|].
    destruct (c =? dquote)%char eqn:Eq.
    { apply Ascii.eqb_eq in Eq. subst c.
      destruct (scanstring s') as [k r0| |] eqn:E; inversion H; subst.
      destruct (scanstring_local _ _ _ E) as (p & -> & Hp).
      exists (dquote :: p). repeat split; [discriminate|discriminate|].
      intros r' _. cbn [app]. now rewrite scan_once_string, Hp. }
    destruct (c =? "{")%char eqn:Eo.
    { apply Ascii.eqb_eq in Eo. subst c.
      destruct (skip_ws_split s') as (w & Hs' & Hw).
      pose proof (skip_ws_no_ws_head s') as Hnw.
      destruct (skip_ws s') as [|c1 r1] eqn:Es; [discriminate|].
      destruct (c1 =? "}")%char eqn:Ec.
      - apply Ascii.eqb_eq in Ec. subst c1. inversion H; subst.
        exists ("{"%char :: w ++ ["}"%char]).
        split; [now repeat (rewrite <- ?app_assoc; cbn [app])|].
        split; [discriminate|]. split; [intros _ _; now exists w|].
        intros r' _. cbn [app]. rewrite scan_once_object.
        repeat (rewrite <- ?app_assoc; cbn [app]). rewrite (skip_ws_ws w ("}"%char :: r') Hw eq_refl).
        reflexivity.
      - destruct (IHp _ _ _ _ H) as (p1 & Hp1 & Hre).
        destruct p1 as [|c1' p1'].
        { inversion Hp1; subst. discriminate. }
        inversion Hp1; subst c1' r1.
        exists ("{"%char :: w ++ (c1 :: p1') ++ ["}"%char]).
        split; [rewrite Hs'; now repeat (rewrite <- ?app_assoc; cbn [app])|].
        split; [discriminate|].
        split.
        { intros _ _. exists (w ++ c1 :: p1').
          now repeat (rewrite <- ?app_assoc; cbn [app]). }
        intros r' _. cbn [app]. rewrite scan_once_object.
        repeat (rewrite <- ?app_assoc; cbn [app]).
        rewrite (skip_ws_ws w (c1 :: p1' ++ "}"%char :: r') Hw Hnw), Ec.
        exact (Hre r'). }
    destruct (c =? "[")%char eqn:Ea.
    { apply Ascii.eqb_eq in Ea. subst c.
      destruct (skip_ws_split s') as (w & Hs' & Hw).
      pose proof (skip_ws_no_ws_head s') as Hnw.
      destruct (skip_ws s') as [|c1 r1] eqn:Es; [discriminate|].
      destruct (c1 =? "]")%char eqn:Ec.
      - apply Ascii.eqb_eq in Ec. subst c1. inversion H; subst.
        exists ("["%char :: w ++ ["]"%char]).
        split; [now repeat (rewrite <- ?app_assoc; cbn [app])|].
        split; [discriminate|]. split; [discriminate|].
        intros r' _. cbn [app]. rewrite scan_once_array.
        repeat (rewrite <- ?app_assoc; cbn [app]). rewrite (skip_ws_ws w ("]"%char :: r') Hw eq_refl).
        reflexivity.
      - destruct (IHi _ _ _ _ H) as ((l & ->) & p1 & Hp1 & Hre).
        destruct p1 as [|c1' p1'].
        { inversion Hp1; subst. discriminate. }
        inversion Hp1; subst c1' r1.
        exists ("["%char :: w ++ (c1 :: p1') ++ ["]"%char]).
        split; [rewrite Hs'; now repeat (rewrite <- ?app_assoc; cbn [app])|].
        split; [discriminate|]. split; [discriminate|].
        intros r' _. cbn [app]. rewrite scan_once_array.
        repeat (rewrite <- ?app_assoc; cbn [app]).
        rewrite (skip_ws_ws w (c1 :: p1' ++ "]"%char :: r') Hw Hnw), Ec.
        exact (Hre r'). }
    assert (Hword : forall w v0,
               w <> [] -> (forall d, v0 <> JObj d) ->
               (forall r', scan_once (S f) (w ++ r') = Scanned v0 r') ->
               scan_word w v0 (c :: s') = Scanned v r ->
               exists p,
                 c :: s' = p ++ r /\ p <> []
                 /\ (forall d, v = JObj d ->
                               exists body, p = "{"%char :: body ++ ["}"%char])
                 /\ forall r', stop_head r' ->
                               scan_once (S f) (p ++ r') = Scanned v r').
    { intros w v0 Hw Hv0 Hre Hsw. unfold scan_word in Hsw.
      destruct (strip_prefix w (c :: s')) as [r0|] eqn:E; [|discriminate].
      inversion Hsw; subst. exists w.
      split; [exact (strip_prefix_suffix _ _ _ E)|]. split; [exact Hw|].
      split; [intros d Hd; now destruct (Hv0 d)|]. intros r' _. apply Hre. }
    destruct (c =? "n")%char;
      [eapply Hword; [| | |exact H];
       [discriminate|discriminate|reflexivity]|].
    destruct (c =? "t")%char;
      [eapply Hword; [| | |exact H];
       [discriminate|discriminate|reflexivity]|].
    destruct (c =? "f")%char;
      [eapply Hword; [| | |exact H];
       [discriminate|discriminate|reflexivity]|].
    destruct (c =? "N")%char;
      [eapply Hword; [| | |exact H];
       [discriminate|discriminate|reflexivity]|].
    destruct (c =? "I")%char;
      [eapply Hword; [| | |exact H];
       [discriminate|discriminate|reflexivity]|].
    destruct (strip_prefix (str "-Infinity") (c :: s')) as [r0|] eqn:E.
    { inversion H; subst. exists (str "-Infinity").
      split; [exact (strip_prefix_suffix _ _ _ E)|]. split; [discriminate|].
      split; [discriminate|]. intros r' _. reflexivity. }
    destruct (scan_number_local _ _ _ H) as (p & Hp & Hns & Hre).
    exists p. split; [exact Hp|]. split; [now apply numeral_start_nonempty|].
    split.
    { intros d ->. now destruct (scan_number_not_object (c :: s') d r). }
    intros r' Hr'. rewrite (scan_once_numeral f p r' Hns). now apply Hre.
  - intros acc s v r H. cbn [scan_pairs] in H.
    destruct s as [|q s']; [discriminate|].
    destruct (q =? dquote)%char eqn:Eq; [|discriminate].
    apply Ascii.eqb_eq in Eq. subst q.
    destruct (scanstring s') as [key r1| |] eqn:E0; try discriminate.
    destruct (scanstring_local _ _ _ E0) as (p1 & -> & Hp1).
    destruct (skip_ws_split r1) as (w1 & Hr1 & Hw1).
    destruct (skip_ws r1) as [|c r2] eqn:Es1; [discriminate|].
    destruct (c =? ":")%char eqn:Ec; [|discriminate].
    destruct (skip_ws_split r2) as (w2 & Hr2 & Hw2).
    pose proof (skip_ws_no_ws_head r2) as Hnw2.
    destruct (scan_once f (skip_ws r2)) as [v1 r3| |] eqn:E1; try discriminate.
    destruct (IHo _ _ _ E1) as (p3 & Hp3 & Hne3 & _ & Hre3).
    destruct (skip_ws_split r3) as (w3 & Hr3 & Hw3).
    pose proof (skip_ws_no_ws_head r3) as Hnw3.
    destruct (skip_ws r3) as [|c' r4] eqn:Es3; [discriminate|].
    assert (Hfront : forall x,
               stop_head x ->
               scan_pairs (S f) acc
                 (dquote :: p1 ++ w1 ++ c :: w2 ++ p3 ++ x)
               = match skip_ws x with
                 | c'' :: r4' =>
                     if (c'' =? "}")%char
                     then Scanned (JObj (dict_set key v1 acc)) r4'
                     else if (c'' =? ",")%char
                          then scan_pairs f (dict_set key v1 acc) (skip_ws r4')
                          else Malformed
                 | [] => Malformed
                 end).
    { intros x Hx. rewrite scan_pairs_step, Hp1.
      rewrite (skip_ws_ws w1 (c :: w2 ++ p3 ++ x) Hw1)
        by (rewrite Hr1 in Es1; pose proof (skip_ws_no_ws_head r1) as Hn;
            rewrite <- Hr1 in Es1; rewrite Es1 in Hn; exact Hn).
      rewrite Ec.
      rewrite (skip_ws_ws w2 (p3 ++ x) Hw2)
        by (rewrite Hp3 in Hnw2; now apply (no_ws_head_app p3 r3 x)).
      now rewrite (Hre3 x Hx). }
    destruct (c' =? "}")%char eqn:Ec'.
    + apply Ascii.eqb_eq in Ec'. subst c'. inversion H; subst v r4.
      exists (dquote :: p1 ++ w1 ++ c :: w2 ++ p3 ++ w3).
      split.
      { rewrite Hr1, Hr2, Hp3, Hr3.
        now repeat (rewrite <- ?app_assoc; cbn [app]). }
      intros r'. repeat (rewrite <- ?app_assoc; cbn [app]).
      rewrite (Hfront (w3 ++ "}"%char :: r'))
        by (now apply stop_head_ws_then).
      now rewrite (skip_ws_ws w3 ("}"%char :: r') Hw3 eq_refl).
    + destruct (c' =? ",")%char eqn:Ec''; [|discriminate].
      destruct (skip_ws_split r4) as (w4 & Hr4 & Hw4).
      pose proof (skip_ws_no_ws_head r4) as Hnw4.
      destruct (IHp _ _ _ _ H) as (p5 & Hp5 & Hre5).
      exists (dquote :: p1 ++ w1 ++ c :: w2 ++ p3 ++ w3 ++ c' :: w4 ++ p5).
      split.
      { rewrite Hr1, Hr2, Hp3, Hr3, Hr4, Hp5.
        now repeat (rewrite <- ?app_assoc; cbn [app]). }
      intros r'. repeat (rewrite <- ?app_assoc; cbn [app]).
      rewrite (Hfront (w3 ++ c' :: w4 ++ p5 ++ "}"%char :: r')).
      * rewrite (skip_ws_ws w3 (c' :: w4 ++ p5 ++ "}"%char :: r') Hw3 Hnw3).
        rewrite Ec', Ec''.
        rewrite (skip_ws_ws w4 (p5 ++ "}"%char :: r') Hw4)
          by (rewrite Hp5 in Hnw4; exact (no_ws_head_swap _ _ _ _ Hnw4)).
        apply Hre5.
      * apply stop_head_ws_then; [exact Hw3|].
        apply Ascii.eqb_eq in Ec''. now subst c'.
  - intros acc s v r H. cbn [scan_items] in H.
    destruct (scan_once f s) as [v1 r1| |] eqn:E1; try discriminate.
    destruct (IHo _ _ _ E1) as (p1 & Hp1 & Hne1 & _ & Hre1).
    destruct (skip_ws_split r1) as (w1 & Hr1 & Hw1).
    pose proof (skip_ws_no_ws_head r1) as Hnw1.
    destruct (skip_ws r1) as [|c r2] eqn:Es1; [discriminate|].
    destruct (c =? "]")%char eqn:Ec.
    + apply Ascii.eqb_eq in Ec. subst c. inversion H; subst v r2.
      split; [now eexists|].
      exists (p1 ++ w1).
      split; [rewrite Hp1, Hr1; now repeat (rewrite <- ?app_assoc; cbn [app])|].
      intros r'. rewrite scan_items_step.
      repeat (rewrite <- ?app_assoc; cbn [app]).
      rewrite (Hre1 (w1 ++ "]"%char :: r'))
        by (now apply stop_head_ws_then).
      now rewrite (skip_ws_ws w1 ("]"%char :: r') Hw1 eq_refl).
    + destruct (c =? ",")%char eqn:Ec'; [|discriminate].
      destruct (skip_ws_split r2) as (w2 & Hr2 & Hw2).
      pose proof (skip_ws_no_ws_head r2) as Hnw2.
      destruct (IHi _ _ _ _ H) as (Hl & p5 & Hp5 & Hre5).
      split; [exact Hl|].
      exists (p1 ++ w1 ++ c :: w2 ++ p5).
      split.
      { rewrite Hp1, Hr1, Hr2, Hp5.
        now repeat (rewrite <- ?app_assoc; cbn [app]). }
      intros r'. rewrite scan_items_step.
      repeat (rewrite <- ?app_assoc; cbn [app]).
      rewrite (Hre1 (w1 ++ c :: w2 ++ p5 ++ "]"%char :: r')).
      * rewrite (skip_ws_ws w1 (c :: w2 ++ p5 ++ "]"%char :: r') Hw1 Hnw1).
        rewrite Ec, Ec'.
        rewrite (skip_ws_ws w2 (p5 ++ "]"%char :: r') Hw2)
          by (rewrite Hp5 in Hnw2; exact (no_ws_head_swap _ _ _ _ Hnw2)).
        apply Hre5.
      * apply stop_head_ws_then; [exact Hw1|].
        apply Ascii.eqb_eq in Ec'. now subst c.
Qed.

(* ------------------------------------------------------------------ *)
(** * A response that holds an object *)

Lemma json_ws_is_space c : is_json_ws c = true -> is_space c = true.
Proof.
  destruct c as [[] [] [] [] [] [] [] []]; intros H;
    solve [reflexivity | discriminate H].
Qed.

Lemma json_ws_plain c : is_json_ws c = true -> plain_char c = true.
Proof.
  destruct c as [[] [] [] [] [] [] [] []]; intros H;
    solve [reflexivity | discriminate H].
Qed.

Lemma json_ws_no_brace w :
  forallb is_json_ws w = true -> ~ In "}"%char w.
Proof.
  intros H Hin. rewrite forallb_forall in H. specialize (H _ Hin).
  discriminate H.
Qed.

Lemma forallb_impl {A : Type} (p q : A -> bool) l :
  (forall a, p a = true -> q a = true) ->
  forallb p l = true -> forallb q l = true.
Proof.
  intros Hpq. rewrite !forallb_forall. intros H a Ha. apply Hpq, H, Ha.
Qed.

(** The text of an object: white space, the braces and what they hold,
    white space; the braces alone decode to the same object. *)
Lemma json_decode_object_text t d :
  json_decode t = Some (JObj d) ->
  exists w1 body w2,
    t = w1 ++ ("{"%char :: body ++ ["}"%char]) ++ w2
    /\ forallb is_json_ws w1 = true
    /\ forallb is_json_ws w2 = true
    /\ json_decode ("{"%char :: body ++ ["}"%char]) = Some (JObj d).
Proof.
  unfold json_decode. intros H.
  destruct (skip_ws_split t) as (w1 & Ht & Hw1).
  destruct (scan_once (scan_fuel (skip_ws t)) (skip_ws t)) as [v r| |] eqn:E;
    try discriminate.
  destruct (skip_ws_split r) as (w2 & Hr & Hw2).
  destruct (skip_ws r); [|discriminate]. inversion H; subst v.
  rewrite app_nil_r in Hr. subst w2.
  destruct (proj1 (scan_local _) _ _ _ E) as (p & Hp & _ & Hbody & Hre).
  destruct (Hbody d eq_refl) as (body & ->).
  exists w1, body, r. split; [now rewrite Ht at 1; rewrite Hp|].
  split; [exact Hw1|]. split; [exact Hw2|].
  specialize (Hre [] I). rewrite app_nil_r in Hre.
  assert (Hsk : skip_ws ("{"%char :: body ++ ["}"%char])
                = "{"%char :: body ++ ["}"%char]) by reflexivity.
  rewrite <- (json_decode_any_fuel ("{"%char :: body ++ ["}"%char])
                (scan_fuel (skip_ws t))).
  - rewrite Hsk, Hre. reflexivity.
  - rewrite Hsk, Hp. unfold scan_fuel. rewrite length_app. lia.
Qed.

Lemma lstrip_keep pre y :
  y <> [] -> not_space_head y -> lstrip (pre ++ y) = lstrip pre ++ y.
Proof.
  intros Hne Hy. induction pre as [|c pre IH]; simpl.
  - now apply lstrip_head.
  - destruct (is_space c); [exact IH|reflexivity].
Qed.

(** [strip] only removes from the two ends. *)
Lemma strip_middle pre mid post :
  mid <> [] -> not_space_head mid -> not_space_head (rev mid) ->
  strip (pre ++ mid ++ post)
  = lstrip pre ++ mid ++ rev (lstrip (rev post)).
Proof.
  intros Hne Hm Hr. unfold strip.
  rewrite (lstrip_keep pre (mid ++ post)).
  - rewrite !rev_app_distr, <- app_assoc.
    rewrite (lstrip_keep (rev post) (rev mid ++ rev (lstrip pre))).
    + rewrite !rev_app_distr, !rev_involutive. now rewrite <- app_assoc.
    + destruct (rev mid) eqn:E; [|discriminate].
      apply (f_equal (@rev ascii)) in E. rewrite rev_involutive in E.
      now destruct Hne.
    + destruct (rev mid) eqn:E; [|exact Hr].
      apply (f_equal (@rev ascii)) in E. rewrite rev_involutive in E.
      now destruct Hne.
  - destruct mid; [now destruct Hne|discriminate].
  - destruct mid; [now destruct Hne|exact Hm].
Qed.

Lemma forallb_lstrip (p : ascii -> bool) s :
  forallb p s = true -> forallb p (lstrip s) = true.
Proof.
  destruct (lstrip_split s) as (w & Hs & _). intros H. rewrite Hs in H.
  rewrite forallb_app in H. now apply andb_true_iff in H.
Qed.

Lemma In_rstrip c s : In c (rev (lstrip (rev s))) -> In c s.
Proof.
  intros H. apply in_rev in H.
  destruct (lstrip_split (rev s)) as (w & Hs & _).
  apply in_rev. rewrite Hs. apply in_or_app. now right.
Qed.

Lemma json_loads_object_text js d :
  json_loads js = Ok (JObj d) ->
  exists w1 body w2,
    js = w1 ++ ("{"%char :: body ++ ["}"%char]) ++ w2
    /\ forallb is_json_ws w1 = true
    /\ forallb is_json_ws w2 = true
    /\ json_loads ("{"%char :: body ++ ["}"%char]) = Ok (JObj d).
Proof.
  unfold json_loads at 1. intros H.
  destruct (json_decode js) as [v|] eqn:E; inversion H; subst v.
  destruct (json_decode_object_text js d E) as (w1 & body & w2 & Hjs & H1 & H2 & Hd).
  exists w1, body, w2. repeat split; try assumption.
  unfold json_loads. now rewrite Hd.
Qed.

Lemma braces_not_space_head body :
  not_space_head ("{"%char :: body ++ ["}"%char])
  /\ not_space_head (rev ("{"%char :: body ++ ["}"%char])).
Proof.
  split; [reflexivity|].
  cbn [rev]. rewrite rev_app_distr. reflexivity.
Qed.

(** The text of an object between a text without brace or backquote and
    a text without closing brace. *)
Lemma parse_response_bare_object pre js post d :
  forallb plain_char pre = true ->
  ~ In "}"%char post ->
  json_loads js = Ok (JObj d) ->
  parse_response (pre ++ js ++ post) = Ok (JObj d).
Proof.
  intros Hpre Hpost Hjs.
  destruct (json_loads_object_text js d Hjs)
    as (w1 & body & w2 & -> & H1 & H2 & Hd).
  destruct (braces_not_space_head body) as [Hh Hr].
  rewrite <- Hd.
  apply (parse_response_found _ [(2, "{"%char :: body ++ ["}"%char])]);
    [|reflexivity].
  replace (pre ++ (w1 ++ ("{"%char :: body ++ ["}"%char]) ++ w2) ++ post)
    with ((pre ++ w1) ++ ("{"%char :: body ++ ["}"%char]) ++ (w2 ++ post))
    by now repeat (rewrite <- ?app_assoc; cbn [app]).
  rewrite strip_middle by (assumption || discriminate).
  cbn [app]. rewrite <- app_assoc. cbn [app].
  apply re_search_bare.
  - apply forallb_lstrip. rewrite forallb_app, Hpre.
    exact (forallb_impl _ _ _ json_ws_plain H1).
  - intros Hin. apply In_rstrip in Hin. apply in_app_or in Hin as [Hin|Hin].
    + exact (json_ws_no_brace _ H2 Hin).
    + exact (Hpost Hin).
Qed.

(** The same text inside a fence. *)
Lemma parse_response_fenced_object pre js post d :
  forallb plain_char pre = true ->
  ~ In "}"%char post ->
  json_loads js = Ok (JObj d) ->
  parse_response (pre ++ (fence_open ++ js ++ fence_close) ++ post)
  = Ok (JObj d).
Proof.
  intros Hpre Hpost Hjs.
  destruct (json_loads_object_text js d Hjs)
    as (w1 & body & w2 & -> & H1 & H2 & Hd).
  rewrite <- Hd.
  apply (parse_response_found _ [(1, "{"%char :: body ++ ["}"%char])]);
    [|reflexivity].
  rewrite strip_middle.
  - replace (lstrip pre
             ++ (fence_open
                 ++ (w1 ++ ("{"%char :: body ++ ["}"%char]) ++ w2)
                 ++ fence_close)
             ++ rev (lstrip (rev post)))
      with (lstrip pre ++ fence_open ++ w1 ++ "{"%char :: body ++ "}"%char
              :: w2 ++ fence_close ++ rev (lstrip (rev post)))
      by now repeat (rewrite <- ?app_assoc; cbn [app]).
    apply re_search_fenced.
    + now apply forallb_lstrip.
    + exact (forallb_impl _ _ _ json_ws_is_space H1).
    + exact (forallb_impl _ _ _ json_ws_is_space H2).
    + intros Hin. apply In_rstrip in Hin. exact (Hpost Hin).
  - discriminate.
  - reflexivity.
  - rewrite !rev_app_distr. reflexivity.
Qed.

(** X1.  When the service answers with the text of a JSON object, with
    any text without brace or backquote in front of it and any text
    without closing brace behind it, the analyzer returns that object and
    shows nothing: the fallback is not used and the page is unchanged. *)
Theorem analyze_feedback_returns_object
        service rating review w pre js post d :
  service (build_prompt rating review) = Reply (pre ++ js ++ post) ->
  forallb plain_char pre = true ->
  ~ In "}"%char post ->
  json_loads js = Ok (JObj d) ->
  analyze_feedback service rating review w = (Ok (JObj d), w).
Proof.
  intros Hs Hpre Hpost Hjs.
  rewrite (analyze_feedback_reply _ _ _ _ _ Hs).
  now rewrite (parse_response_bare_object pre js post d Hpre Hpost Hjs).
Qed.

Lemma analyze_feedback_returns_object_witness :
  analyze_feedback
    (replies (str "Here is the analysis: " ++ two_field_reply
                  ++ str " Let me know."))
    5 (str "great") empty_world
  = (Ok (JObj [ (str "user_response", JStr (str "Thanks!"));
                (str "action", JStr (str "Call the customer back.")) ]),
     empty_world).
Proof.
  apply (analyze_feedback_returns_object _ 5 (str "great") empty_world
           (str "Here is the analysis: ") two_field_reply
           (str " Let me know."));
    [reflexivity|reflexivity| |vm_compute; reflexivity].
  simpl. intuition discriminate.
Defined.

(** X2.  The same holds when the object is in a fence: three backquotes
    and the word json, the text of the object, three backquotes. *)
Theorem analyze_feedback_returns_fenced_object
        service rating review w pre js post d :
  service (build_prompt rating review)
  = Reply (pre ++ (fence_open ++ js ++ fence_close) ++ post) ->
  forallb plain_char pre = true ->
  ~ In "}"%char post ->
  json_loads js = Ok (JObj d) ->
  analyze_feedback service rating review w = (Ok (JObj d), w).
Proof.
  intros Hs Hpre Hpost Hjs.
  rewrite (analyze_feedback_reply _ _ _ _ _ Hs).
  now rewrite (parse_response_fenced_object pre js post d Hpre Hpost Hjs).
Qed.

Lemma analyze_feedback_returns_fenced_object_witness :
  analyze_feedback
    (replies (str "Sure. "
              ++ (fence_open ++ (newline :: two_field_reply ++ [newline])
                             ++ fence_close)
              ++ str " Anything else?"))
    2 (str "slow") empty_world
  = (Ok (JObj [ (str "user_response", JStr (str "Thanks!"));
                (str "action", JStr (str "Call the customer back.")) ]),
     empty_world).
Proof.
  apply (analyze_feedback_returns_fenced_object _ 2 (str "slow") empty_world
           (str "Sure. ") (newline :: two_field_reply ++ [newline])
           (str " Anything else?"));
    [reflexivity|reflexivity| |vm_compute; reflexivity].
  simpl. intuition discriminate.
Defined.

(* ------------------------------------------------------------------ *)
(** * The file is plain ASCII *)

Lemma escape_char_ascii c : forallb ascii_file_char (escape_char c) = true.
Proof. destruct c as [[] [] [] [] [] [] [] []]; reflexivity. Qed.

Lemma flat_map_escape_ascii s :
  forallb ascii_file_char (flat_map escape_char s) = true.
Proof.
  induction s as [|c s IH]; simpl; [reflexivity|].
  now rewrite forallb_app, escape_char_ascii, IH.
Qed.

Lemma encode_string_ascii s :
  forallb ascii_file_char (encode_string s) = true.
Proof.
  unfold encode_string. cbn [forallb].
  now rewrite forallb_app, flat_map_escape_ascii.
Qed.

Lemma digits_text_ascii ds : forallb ascii_file_char (digits_text ds) = true.
Proof.
  induction ds as [|d ds IH]; simpl; [reflexivity|].
  rewrite IH. now destruct d.
Qed.

Lemma int_repr_ascii z : forallb ascii_file_char (int_repr z) = true.
Proof.
  unfold int_repr. destruct z as [|p|p]; apply digits_text_ascii.
Qed.

Lemma exponent_text_ascii e :
  forallb ascii_file_char (exponent_text e) = true.
Proof.
  unfold exponent_text, digits1_text. cbn [forallb].
  rewrite forallb_app, digits_text_ascii.
  now destruct (exp_upper e), (exp_sg e).
Qed.

Lemma float_repr_ascii f : forallb ascii_file_char (float_repr f) = true.
Proof.
  destruct f as [|[]|neg ip t]; try reflexivity.
  unfold float_repr. rewrite !forallb_app, digits_text_ascii.
  assert (Ht : forallb ascii_file_char (float_tail_text t) = true).
  { destruct t as [fr [e|]|e]; unfold float_tail_text, digits1_text;
      cbn [forallb]; rewrite ?forallb_app, ?digits_text_ascii,
                       ?exponent_text_ascii; reflexivity. }
  rewrite Ht. now destruct neg.
Qed.

Lemma newline_indent_ascii lvl :
  forallb ascii_file_char (newline_indent lvl) = true.
Proof.
  unfold newline_indent. cbn [forallb].
  induction (4 * lvl) as [|n IH]; [reflexivity|exact IH].
Qed.

Lemma join_ascii sep l :
  forallb ascii_file_char sep = true ->
  Forall (fun x => forallb ascii_file_char x = true) l ->
  forallb ascii_file_char (join sep l) = true.
Proof.
  intros Hsep H. induction H as [|x l Hx Hl IH]; [reflexivity|].
  destruct l as [|y l]; [exact Hx|].
  change (join sep (x :: y :: l)) with (x ++ sep ++ join sep (y :: l)).
  now rewrite !forallb_app, Hx, Hsep, IH.
Qed.

Lemma encode_ascii v :
  forall lvl, forallb ascii_file_char (encode lvl v) = true.
Proof.
  induction v as [|b|z|x|s|l IH|l IH] using json_nested_ind; intros lvl.
  - reflexivity.
  - now destruct b.
  - apply int_repr_ascii.
  - apply float_repr_ascii.
  - apply encode_string_ascii.
  - destruct l as [|v l]; [reflexivity|].
    change (encode lvl (JArr (v :: l)))
      with ("["%char :: newline_indent (S lvl)
              ++ join (","%char :: newline_indent (S lvl))
                   (map (encode (S lvl)) (v :: l))
              ++ newline_indent lvl ++ ["]"%char]).
    cbn [forallb]. rewrite !forallb_app, !newline_indent_ascii.
    rewrite join_ascii;
      [reflexivity|exact (newline_indent_ascii (S lvl))|].
    apply Forall_map. revert IH. apply Forall_impl. intros a Ha. apply Ha.
  - destruct l as [|kv l]; [reflexivity|].
    change (encode lvl (JObj (kv :: l)))
      with ("{"%char :: newline_indent (S lvl)
              ++ join (","%char :: newline_indent (S lvl))
                   (map (fun kv => encode_string (fst kv) ++ str ": "
                                     ++ encode (S lvl) (snd kv)) (kv :: l))
              ++ newline_indent lvl ++ ["}"%char]).
    cbn [forallb]. rewrite !forallb_app, !newline_indent_ascii.
    rewrite join_ascii;
      [reflexivity|exact (newline_indent_ascii (S lvl))|].
    apply Forall_map. revert IH. apply Forall_impl. intros a Ha.
    now rewrite !forallb_app, encode_string_ascii, Ha.
Qed.

(** X4.  Whatever record is saved over whatever store, the file that
    [save_data] has written holds only line feeds and printable ASCII
    characters: every other character of a review is escaped, and the
    file reads back the same under every encoding that extends ASCII. *)
Theorem save_data_writes_ascii r w w' :
  save_data r w = (Ok tt, w') ->
  exists t, file w' = Some t /\ forallb ascii_file_char t = true.
Proof.
  intros H. pose proof (load_data_stored w) as Hl.
  destruct (stored (file w)) as [| | | | |s|] eqn:E;
    try (rewrite (save_data_not_list w _ r Hl) in H by discriminate;
         discriminate).
  rewrite (save_data_list w s r Hl) in H. inversion H; subst.
  eexists. split; [reflexivity|]. apply encode_ascii.
Qed.

Lemma save_data_writes_ascii_witness :
  exists t,
    file (snd (save_data (JStr [ascii_of_nat 233]) example_store)) = Some t
    /\ forallb ascii_file_char t = true.
Proof.
  apply (save_data_writes_ascii (JStr [ascii_of_nat 233]) example_store).
  reflexivity.
Defined.

(* ------------------------------------------------------------------ *)
(** * What the direct parse and the decoder can give *)

(** X5.  When the pattern is not found in the response, the direct parse
    of the whole text never gives an object: it raises, or it gives a
    value on which the form cannot call [get]. *)
Theorem direct_parse_gives_no_object t v :
  re_search json_pattern (strip t) = None ->
  parse_response t = Ok v ->
  forall d, v <> JObj d.
Proof.
  intros Hre Hp d ->. unfold parse_response in Hp. rewrite Hre in Hp.
  destruct (json_loads_object_text _ _ Hp) as (w1 & body & w2 & Ht & _).
  apply re_search_none_iff in Hre. apply Hre.
  exists w1, body, w2. rewrite Ht.
  now repeat (rewrite <- ?app_assoc; cbn [app]).
Qed.

Lemma direct_parse_gives_no_object_witness :
  parse_response (str " [1, 2] ") = Ok (JArr [JInt 1; JInt 2])
  /\ JArr [JInt 1; JInt 2] <> JObj [].
Proof.
  split; [reflexivity|].
  apply (direct_parse_gives_no_object (str " [1, 2] ")); reflexivity.
Defined.


(* ------------------------------------------------------------------ *)
(** * The store over many runs of the form *)

Lemma stored_keys_unique f : keys_unique (stored f) = true.
Proof.
  exact (load_data_keys_unique (World f []) _ _ (load_data_stored (World f []))).
Qed.

Lemma stored_appended s e :
  keys_unique (JArr s) = true ->
  keys_unique e = true ->
  stored (Some (json_encode (JArr (s ++ [e])))) = JArr (s ++ [e]).
Proof.
  intros Hs He. unfold stored. rewrite json_decode_encode; [reflexivity|].
  cbn [keys_unique] in Hs |- *. rewrite forallb_app, Hs. cbn [forallb].
  now rewrite He.
Qed.

(** What one run of the form does to the list in the store. *)
Lemma feedback_form_appends service now submitted rating review w res w' s :
  feedback_form service now submitted rating review w = (res, w') ->
  stored (file w) = JArr s ->
  stored (file w') = JArr s
  \/ exists payload,
      stored (file w') = JArr (s ++ [entry_of now rating review payload]).
Proof.
  intros H Hs.
  destruct (feedback_form_step _ _ _ _ _ _ _ _ H)
    as [->|(s0 & payload & Hk & Hs0 & ->)]; [now left|].
  rewrite Hs in Hs0. inversion Hs0; subst s0. right. exists payload.
  apply stored_appended.
  - rewrite <- Hs. apply stored_keys_unique.
  - now apply entry_of_keys_unique.
Qed.

(** X7.  The store only grows.  Over any number of runs of the form,
    whatever the services answer, the list that [load_data] returns keeps
    the records it had, in their order, and what has come behind them are
    records of the six fields. *)
Theorem runs_append_only w w' s :
  runs w w' ->
  stored (file w) = JArr s ->
  exists s', stored (file w') = JArr (s ++ s') /\ Forall has_six_fields s'.
Proof.
  intros Hr. revert s.
  induction Hr as [w|w service now submitted rating review res w1 w' H _ IH];
    intros s Hs.
  - exists []. rewrite app_nil_r. now split.
  - destruct (feedback_form_appends _ _ _ _ _ _ _ _ _ H Hs)
      as [Hs1|(payload & Hs1)].
    + exact (IH s Hs1).
    + destruct (IH _ Hs1) as (s' & Hs' & Hsix).
      exists (entry_of now rating review payload :: s').
      split; [now rewrite Hs', <- app_assoc|].
      constructor; [apply entry_of_six_fields|exact Hsix].
Qed.

Lemma runs_append_only_witness :
  exists s',
    stored (file (snd (feedback_form (replies bare_example)
                         (str "2025-01-01 10:00:00") true 4 (str "good")
                         example_store)))
    = JArr ([JObj [ (str "timestamp", JStr (str "t0"));
                    (str "rating", JInt 1);
                    (str "review", JStr (str "cold")) ]] ++ s')
    /\ Forall has_six_fields s'.
Proof.
  apply (runs_append_only example_store).
  - apply (runs_step example_store (replies bare_example)
             (str "2025-01-01 10:00:00") true 4 (str "good") (Ok tt)
             (snd (feedback_form (replies bare_example)
                     (str "2025-01-01 10:00:00") true 4 (str "good")
                     example_store)));
      [vm_compute; reflexivity|apply runs_refl].
  - vm_compute; reflexivity.
Defined.

(** X8.  A store that holds well-formed JSON which is not a list is never
    repaired.  Every submission of a review that is not empty ends in
    [AttributeError], and over any number of runs of the form the file
    stays as it is. *)
Theorem store_not_list_is_stuck w :
  (forall l, stored (file w) <> JArr l) ->
  (forall service now rating review,
      truthy review = true ->
      exists w1,
        feedback_form service now true rating review w
        = (Raise AttributeError, w1)
        /\ file w1 = file w)
  /\ (forall w', runs w w' -> file w' = file w).
Proof.
  intros Hnl. split.
  - intros service now rating review Ht.
    destruct (analyze_feedback_returns service rating review w)
      as (v & w1 & Ha & Hf & _). exists w1. split; [|exact Hf].
    assert (Hv : (exists d, v = JObj d) \/ forall d, v <> JObj d)
      by (destruct v; try (right; discriminate); left; now eexists).
    destruct Hv as [(payload & ->)|Hv].
    + apply (feedback_form_store_not_list _ now _ _ _ _ payload Ht Ha).
      now rewrite Hf.
    + exact (feedback_form_not_dict _ now _ _ _ _ _ Ht Ha Hv).
  - intros w' Hr. induction Hr
      as [w|w service now submitted rating review res w1 w' H _ IH];
      [reflexivity|].
    destruct (feedback_form_step _ _ _ _ _ _ _ _ H)
      as [Hf|(s & _ & _ & Hs & _)]; [|now destruct (Hnl s)].
    rewrite <- Hf. apply IH. now rewrite Hf.
Qed.

Lemma store_not_list_is_stuck_witness :
  (forall service now rating review,
      truthy review = true ->
      exists w1,
        feedback_form service now true rating review
                      (World (Some (str "{}")) [])
        = (Raise AttributeError, w1)
        /\ file w1 = file (World (Some (str "{}")) []))
  /\ (forall w', runs (World (Some (str "{}")) []) w' ->
                 file w' = file (World (Some (str "{}")) [])).
Proof.
  apply (store_not_list_is_stuck (World (Some (str "{}")) [])).
  intros l. vm_compute. discriminate.
Defined.

(* ------------------------------------------------------------------ *)
(** * The three ways a run of the form ends *)




(* ------------------------------------------------------------------ *)
(** * The dashboard and the store of the form *)

Lemma dashboard_load_list t l u :
  json_decode t = Some (JArr l) -> l <> [] ->
  dashboard_load (World (Some t) u) = Proceeds (JArr l).
Proof.
  intros Hd Hl. unfold dashboard_load, json_loads. cbn [file]. rewrite Hd.
  destruct l; [now destruct Hl|reflexivity].
Qed.

(** X10.  A record that [save_data] has saved is a record the dashboard
    loads: after a save that returns, the dashboard does not stop, and
    what it goes on with is the list that was in the store with the
    record behind it. *)
Theorem dashboard_loads_saved_record r w w' :
  keys_unique r = true ->
  save_data r w = (Ok tt, w') ->
  exists s,
    stored (file w) = JArr s
    /\ dashboard_load w' = Proceeds (JArr (s ++ [r])).
Proof.
  intros Hr H. pose proof (load_data_stored w) as Hl.
  pose proof (stored_keys_unique (file w)) as Hk.
  destruct (stored (file w)) as [| | | | |s|] eqn:E;
    try (rewrite (save_data_not_list w _ r Hl) in H by discriminate;
         discriminate).
  rewrite (save_data_list w s r Hl) in H. inversion H; subst.
  exists s. split; [reflexivity|].
  apply dashboard_load_list.
  - pose proof (stored_appended s r Hk Hr) as Hs. unfold stored in Hs.
    destruct (json_decode (json_encode (JArr (s ++ [r])))) as [v|];
      [now rewrite Hs|].
    inversion Hs as [Hnil]. now destruct s.
  - now destruct s.
Qed.

Lemma dashboard_loads_saved_record_witness :
  exists s,
    stored (file truncated_store) = JArr s
    /\ dashboard_load (snd (save_data example_record truncated_store))
       = Proceeds (JArr (s ++ [example_record])).
Proof.
  apply (dashboard_loads_saved_record example_record truncated_store);
    reflexivity.
Defined.

Lemma reachable_nonempty w :
  reachable w ->
  file w = None \/ exists l, l <> [] /\ stored (file w) = JArr l.
Proof.
  induction 1 as [u|w service now submitted rating review res w' Hr IH H];
    [now left|].
  destruct (feedback_form_step _ _ _ _ _ _ _ _ H)
    as [->|(s & payload & Hk & Hs & Hf)]; [exact IH|].
  right. exists (s ++ [entry_of now rating review payload]).
  split; [now destruct s|]. rewrite Hf. apply stored_appended.
  - rewrite <- Hs. apply stored_keys_unique.
  - now apply entry_of_keys_unique.
Qed.

(** X11.  Whatever submissions have been made since the store was
    absent, the dashboard never reports an empty database: it waits for
    data as long as nothing has been stored, and from then on it goes on
    with a list that is not empty and holds only records of the six
    fields. *)
Theorem dashboard_after_submissions w :
  reachable w ->
  (file w = None /\ dashboard_load w = Stops (NoticeInfo waiting_for_data))
  \/ exists l,
      l <> [] /\ Forall has_six_fields l
      /\ dashboard_load w = Proceeds (JArr l).
Proof.
  intros Hr.
  destruct (reachable_nonempty w Hr) as [Hn|(l & Hl & Hs)].
  - left. split; [exact Hn|]. unfold dashboard_load. now rewrite Hn.
  - right. exists l. split; [exact Hl|].
    destruct (store_inv_stored _ (reachable_inv w Hr)) as (l' & Hs' & _ & Hsix).
    rewrite Hs in Hs'. inversion Hs'; subst l'. split; [exact Hsix|].
    destruct w as [[t|] u]; cbn [file] in Hs.
    + apply dashboard_load_list; [|exact Hl]. unfold stored in Hs.
      destruct (json_decode t) as [v|]; [now rewrite Hs|].
      inversion Hs as [Hnil]. now destruct Hl.
    + inversion Hs as [Hnil]. now destruct Hl.
Qed.

Lemma dashboard_after_submissions_witness :
  (file world_after_outage = None
   /\ dashboard_load world_after_outage
      = Stops (NoticeInfo waiting_for_data))
  \/ exists l,
      l <> [] /\ Forall has_six_fields l
      /\ dashboard_load world_after_outage = Proceeds (JArr l).
Proof.
  apply (dashboard_after_submissions world_after_outage).
  apply (reach_submit empty_world service_down (str "2025-01-01 10:00:00")
           true 2 (str "cold food") (Ok tt) world_after_outage).
  - apply reach_start.
  - vm_compute; reflexivity.
Defined.

(* ------------------------------------------------------------------ *)
(** * A closing brace behind the object *)

(** The scan of an object stops at its closing brace, whatever follows. *)
Lemma scan_object_local f s d r :
  scan_once f s = Scanned (JObj d) r ->
  exists body,
    s = ("{"%char :: body ++ ["}"%char]) ++ r
    /\ forall r',
        scan_once f (("{"%char :: body ++ ["}"%char]) ++ r')
        = Scanned (JObj d) r'.
Proof.
  intros H.
  destruct (proj1 (scan_local f) _ _ _ H) as (p & Hp & _ & Hbody & _).
  destruct (Hbody d eq_refl) as (body0 & ->). cbn [app] in Hp.
  destruct f as [|f]; [discriminate|].
  destruct s as [|c s']; [discriminate|]. injection Hp as Hc _.
  subst c. rewrite scan_once_object in H.
  destruct (skip_ws_split s') as (w & Hw' & Hw).
  pose proof (skip_ws_no_ws_head s') as Hnw.
  destruct (skip_ws s') as [|c1 r1] eqn:Es; [discriminate|].
  destruct (c1 =? "}")%char eqn:Ec.
  - apply Ascii.eqb_eq in Ec. subst c1. inversion H; subst d r1.
    exists w. split.
    { rewrite Hw'. now repeat (rewrite <- ?app_assoc; cbn [app]). }
    intros r'. cbn [app]. rewrite scan_once_object.
    repeat (rewrite <- ?app_assoc; cbn [app]).
    now rewrite (skip_ws_ws w ("}"%char :: r') Hw eq_refl).
  - destruct (proj1 (proj2 (scan_local f)) _ _ _ _ H) as (p1 & Hp1 & Hre).
    destruct p1 as [|c1' p1'].
    { inversion Hp1; subst. discriminate. }
    inversion Hp1; subst c1' r1.
    exists (w ++ c1 :: p1'). split.
    { rewrite Hw'. now repeat (rewrite <- ?app_assoc; cbn [app]). }
    intros r'. cbn [app]. rewrite scan_once_object.
    repeat (rewrite <- ?app_assoc; cbn [app]).
    rewrite (skip_ws_ws w (c1 :: p1' ++ "}"%char :: r') Hw Hnw), Ec.
    exact (Hre r').
Qed.

Lemma skip_ws_not_nil c y :
  is_json_ws c = false -> In c y -> skip_ws y <> [].
Proof.
  intros Hc. induction y as [|a y IH]; [intros []|].
  intros [->|Hin]; cbn [skip_ws].
  - rewrite Hc. discriminate.
  - destruct (is_json_ws a); [now apply IH|discriminate].
Qed.

(** The text of an object with something behind it that is not white
    space does not decode. *)
Lemma json_loads_object_then js d :
  json_loads js = Ok (JObj d) ->
  exists w1 body w2,
    js = w1 ++ ("{"%char :: body ++ ["}"%char]) ++ w2
    /\ forallb is_json_ws w1 = true
    /\ forallb is_json_ws w2 = true
    /\ forall y,
        skip_ws y <> [] ->
        json_loads (("{"%char :: body ++ ["}"%char]) ++ y)
        = Raise JSONDecodeError.
Proof.
  unfold json_loads at 1. intros H.
  destruct (json_decode js) as [v|] eqn:E; inversion H; subst v. clear H.
  unfold json_decode in E.
  destruct (skip_ws_split js) as (w1 & Hjs & Hw1).
  destruct (scan_once (scan_fuel (skip_ws js)) (skip_ws js)) as [v r| |] eqn:Es;
    try discriminate.
  destruct (skip_ws_split r) as (w2 & Hr & Hw2).
  destruct (skip_ws r); [|discriminate]. inversion E; subst v.
  rewrite app_nil_r in Hr. subst w2.
  destruct (scan_object_local _ _ _ _ Es) as (body & Hp & Hre).
  exists w1, body, r. split; [now rewrite Hjs at 1; rewrite Hp|].
  split; [exact Hw1|]. split; [exact Hw2|].
  intros y Hy. unfold json_loads, json_decode.
  set (p := ("{"%char :: body ++ ["}"%char]) ++ y).
  assert (Hsk : skip_ws p = p) by reflexivity. rewrite Hsk.
  set (F := scan_fuel (skip_ws js)) in *.
  assert (HF : scan_once (scan_fuel p) p = Scanned (JObj d) y).
  { pose proof (json_decode_fuel p) as Hne. rewrite Hsk in Hne.
    rewrite <- (proj1 (scan_more_fuel (scan_fuel p)) p
                  (Nat.max F (scan_fuel p)) (Nat.le_max_r _ _) Hne).
    rewrite (proj1 (scan_more_fuel F) p
               (Nat.max F (scan_fuel p)) (Nat.le_max_l _ _));
      [apply Hre|].
    unfold p. rewrite Hre. discriminate. }
  rewrite HF. destruct (skip_ws y); [now destruct Hy|reflexivity].
Qed.

(** X12.  A closing brace anywhere behind the object spoils the response.
    With no brace or backquote in front of the object, the pattern takes
    everything up to the last closing brace, [json.loads] finds text
    behind the object, and the analyzer reports [JSONDecodeError] and
    answers with the fallback: so it does for two objects in one
    response. *)
Theorem analyze_feedback_brace_behind_object
        service rating review w pre js x post d :
  service (build_prompt rating review)
  = Reply (pre ++ js ++ (x ++ ["}"%char]) ++ post) ->
  forallb plain_char pre = true ->
  ~ In "}"%char post ->
  json_loads js = Ok (JObj d) ->
  analyze_feedback service rating review w
  = (Ok fallback, reported w JSONDecodeError).
Proof.
  intros Hs Hpre Hpost Hjs.
  rewrite (analyze_feedback_reply _ _ _ _ _ Hs).
  destruct (json_loads_object_then js d Hjs)
    as (w1 & body & w2 & -> & H1 & H2 & Hy).
  assert (Hp : parse_response
                 (pre ++ (w1 ++ ("{"%char :: body ++ ["}"%char]) ++ w2)
                      ++ (x ++ ["}"%char]) ++ post)
               = Raise JSONDecodeError); [|now rewrite Hp].
  rewrite <- (Hy (w2 ++ x ++ ["}"%char])).
  2:{ apply (skip_ws_not_nil "}"%char); [reflexivity|].
      apply in_or_app. right. apply in_or_app. right. now left. }
  apply (parse_response_found _
           [(2, "{"%char :: (body ++ "}"%char :: w2 ++ x) ++ ["}"%char])]).
  2:{ cbn [json_string group py_or]. f_equal.
      now repeat (rewrite <- ?app_assoc; cbn [app]). }
  replace (pre ++ (w1 ++ ("{"%char :: body ++ ["}"%char]) ++ w2)
               ++ (x ++ ["}"%char]) ++ post)
    with ((pre ++ w1)
            ++ ("{"%char :: (body ++ "}"%char :: w2 ++ x) ++ ["}"%char])
            ++ post)
    by now repeat (rewrite <- ?app_assoc; cbn [app]).
  destruct (braces_not_space_head (body ++ "}"%char :: w2 ++ x)) as [Hh Hr].
  rewrite strip_middle by (assumption || discriminate).
  cbn [app]. rewrite <- app_assoc. cbn [app].
  apply re_search_bare.
  - apply forallb_lstrip. rewrite forallb_app, Hpre.
    exact (forallb_impl _ _ _ json_ws_plain H1).
  - intros Hin. apply In_rstrip in Hin. exact (Hpost Hin).
Qed.

Lemma analyze_feedback_brace_behind_object_witness :
  analyze_feedback
    (replies (str "Two answers: " ++ two_field_reply
                  ++ (str " or " ++ bare_example) ++ str "."))
    3 (str "ok") empty_world
  = (Ok fallback, reported empty_world JSONDecodeError).
Proof.
  apply (analyze_feedback_brace_behind_object _ 3 (str "ok") empty_world
           (str "Two answers: ") two_field_reply
           (str " or " ++ removelast bare_example) (str ".")
           [ (str "user_response", JStr (str "Thanks!"));
             (str "action", JStr (str "Call the customer back.")) ]);
    [reflexivity|reflexivity| |vm_compute; reflexivity].
  simpl. intuition discriminate.
Defined.
